(** * Scaled dot-product (QKV) attention lab: a shallow embedding

    The development follows the notebook
    [4. NLP with attention models/C4_W1_Ungraded_Lab_2_QKV_Attention.ipynb].

    - Python [str] values are [string]s (read as the UTF-8 bytes of the text);
      [str.lower] is the Unicode table of the interpreter and is taken as a
      parameter of the tokenizer.
    - A [dict] from words to indices is a [gmap string Z].
    - A 2-D NumPy array is a record of its shape and its rows; a 1-D array is
      a list.
    - NumPy computes in binary64.  The numeric code is written once, over a
      [Scalar] interface.  What is proved over every [Scalar] holds of any
      arithmetic.  [binary64] is the arithmetic of the code: Rocq's primitive
      floats (IEEE 754 binary64, round to nearest even), with the C library's
      [exp] as a parameter.  Two other readings serve where they agree with
      binary64: [R_scalar], exact real arithmetic, says what the formulas
      compute when nothing is rounded (there the assertion of
      [calculate_weights] cannot fail, which binary64 does not grant), and
      [fval], real arithmetic with the overflow, underflow-to-zero, infinity
      and NaN rules of binary64 but no rounding, serves for overflow only.
    - Python exceptions are the constructors of [exn]; a call that raises
      returns [Raise e]. *)

From Stdlib Require Import Floats Reals Lra Lia List String Ascii ZArith Bool.
From stdpp Require Import gmap strings.
Import ListNotations.

(** ** Exceptions *)

Inductive exn : Type :=
| ValueError      (* shapes not aligned, operands could not be broadcast *)
| IndexError      (* index out of bounds *)
| AssertionError. (* a failed [assert] *)

Inductive result (A : Type) : Type :=
| Ok (a : A)
| Raise (e : exn).
Arguments Ok {A} a.
Arguments Raise {A} e.

Definition bind {A B : Type} (r : result A) (k : A -> result B) : result B :=
  match r with
  | Ok a => k a
  | Raise e => Raise e
  end.

Notation "'let!' x ':=' r 'in' k" := (bind r (fun x => k))
  (at level 10, x name, r at level 100, k at level 200).

(** ** Scalars *)

Class Scalar (A : Type) : Type := {
  s_zero : A;
  s_one : A;
  s_add : A -> A -> A;
  s_mul : A -> A -> A;
  s_div : A -> A -> A;
  s_exp : A -> A;            (* np.exp on one entry *)
  s_sqrt : A -> A;           (* np.sqrt on one entry *)
  s_of_nat : nat -> A;       (* a Python int used as a float *)
  s_eqb : A -> A -> bool     (* == *)
}.

(** Exact real arithmetic: nothing is rounded, [exp] neither overflows nor
    underflows, and [==] is equality of real numbers.  It gives the value of
    the formulas, not the rounding of binary64. *)
#[export] Instance R_scalar : Scalar R := {|
  s_zero := 0%R;
  s_one := 1%R;
  s_add := Rplus;
  s_mul := Rmult;
  s_div := Rdiv;
  s_exp := exp;
  s_sqrt := sqrt;
  s_of_nat := INR;
  s_eqb := fun a b => if Req_dec_T a b then true else false
|}.

(** ** Arrays *)

Record ndarray (A : Type) : Type := mk_ndarray {
  nrows : nat;
  ncols : nat;
  rows : list (list A)
}.
Arguments mk_ndarray {A} _ _ _.
Arguments nrows {A} _.
Arguments ncols {A} _.
Arguments rows {A} _.

(** The two axes of a 2-D array. *)
Inductive axis : Type := Axis0 | Axis1.

Section Numpy.
Context {A : Type} `{Scalar A}.

Definition shape (X : ndarray A) : nat * nat := (nrows X, ncols X).

(** The rows agree with the declared shape. *)
Definition wf (X : ndarray A) : Prop :=
  length (rows X) = nrows X /\
  Forall (fun r => length r = ncols X) (rows X).

(** [X[i, j]] *)
Definition item (X : ndarray A) (i j : nat) : A :=
  nth j (nth i (rows X) []) s_zero.

(** [X[i]] *)
Definition row (X : ndarray A) (i : nat) : list A :=
  map (fun j => item X i j) (seq 0 (ncols X)).

(** The [r x c] array whose entry [(i, j)] is [f i j]. *)
Definition tabulate (r c : nat) (f : nat -> nat -> A) : ndarray A :=
  mk_ndarray r c (map (fun i => map (fun j => f i j) (seq 0 c)) (seq 0 r)).

(** [np.zeros((r, c))] *)
Definition np_zeros (r c : nat) : ndarray A :=
  tabulate r c (fun _ _ => s_zero).

(** [X.T] *)
Definition transpose (X : ndarray A) : ndarray A :=
  tabulate (ncols X) (nrows X) (fun i j => item X j i).

(** Sum of a 1-D array, accumulated in index order.  This is the order of
    [np.sum] for fewer than eight terms; beyond, NumPy adds pairwise in
    blocks, and [np.dot] leaves the order to its BLAS.  The order matters
    only where additions round: not over the reals, and not for signs,
    infinities and NaN. *)
Definition sum_list (l : list A) : A := fold_left s_add l s_zero.

(** [np.dot(X, Y)] and [np.matmul(X, Y)] on 2-D arrays. *)
Definition np_dot (X Y : ndarray A) : result (ndarray A) :=
  if Nat.eqb (ncols X) (nrows Y) then
    Ok (tabulate (nrows X) (ncols Y) (fun i j =>
          sum_list (map (fun k => s_mul (item X i k) (item Y k j))
                        (seq 0 (ncols X)))))
  else Raise ValueError.

Definition np_matmul (X Y : ndarray A) : result (ndarray A) := np_dot X Y.

(** [np.exp(X)] *)
Definition np_exp (X : ndarray A) : ndarray A :=
  tabulate (nrows X) (ncols X) (fun i j => s_exp (item X i j)).

(** [np.sum(X, axis=ax)], a 1-D array. *)
Definition np_sum (X : ndarray A) (ax : axis) : list A :=
  match ax with
  | Axis0 => map (fun j => sum_list (map (fun i => item X i j) (seq 0 (nrows X))))
                 (seq 0 (ncols X))
  | Axis1 => map (fun i => sum_list (map (fun j => item X i j) (seq 0 (ncols X))))
                 (seq 0 (nrows X))
  end.

(** [np.expand_dims(v, ax)] on a 1-D array. *)
Definition expand_dims (v : list A) (ax : axis) : ndarray A :=
  match ax with
  | Axis0 => tabulate 1 (length v) (fun _ j => nth j v s_zero)
  | Axis1 => tabulate (length v) 1 (fun i _ => nth i v s_zero)
  end.

(** Broadcasting of one dimension. *)
Definition bdim (a b : nat) : option nat :=
  if Nat.eqb a b then Some a
  else if Nat.eqb a 1 then Some b
  else if Nat.eqb b 1 then Some a
  else None.

(** The index read along a dimension of size [n] when broadcasting. *)
Definition bidx (n i : nat) : nat := if Nat.eqb n 1 then 0 else i.

(** [X / Y] on 2-D arrays, with broadcasting. *)
Definition np_divide (X Y : ndarray A) : result (ndarray A) :=
  match bdim (nrows X) (nrows Y), bdim (ncols X) (ncols Y) with
  | Some r, Some c =>
      Ok (tabulate r c (fun i j =>
            s_div (item X (bidx (nrows X) i) (bidx (ncols X) j))
                  (item Y (bidx (nrows Y) i) (bidx (ncols Y) j))))
  | _, _ => Raise ValueError
  end.

(** [X / s] for a scalar [s]. *)
Definition np_divide_scalar (X : ndarray A) (s : A) : ndarray A :=
  tabulate (nrows X) (ncols X) (fun i j => s_div (item X i j) s).

(** [c * X] for a scalar [c]. *)
Definition np_scale (c : A) (X : ndarray A) : ndarray A :=
  mk_ndarray (nrows X) (ncols X) (map (map (s_mul c)) (rows X)).

(** [v[i]] on a 1-D array, [i] non-negative. *)
Definition index (v : list A) (i : nat) : result A :=
  match nth_error v i with
  | Some a => Ok a
  | None => Raise IndexError
  end.

(** The exponentials of row [i] of the scores [x]. *)
Definition exp_row (x : ndarray A) (i : nat) : list A :=
  map (fun j => s_exp (item x i j)) (seq 0 (ncols x)).

(** The row-wise softmax of a score matrix: each exponential over the sum
    of the exponentials of its row. *)
Definition row_softmax (x : ndarray A) : ndarray A :=
  tabulate (nrows x) (ncols x) (fun i j =>
    s_div (s_exp (item x i j)) (sum_list (exp_row x i))).

(** The similarity scores [Q K^T]: entry [(i, j)] is the dot product of
    row [i] of the queries with row [j] of the keys. *)
Definition qk_scores (queries keys : ndarray A) : ndarray A :=
  tabulate (nrows queries) (nrows keys) (fun i j =>
    sum_list (map (fun k => s_mul (item queries i k) (item keys j k))
                  (seq 0 (ncols queries)))).

(** The weights as the specification words them: the row-wise softmax of
    the scores divided by the square root of the feature dimension. *)
Definition scaled_dot_product_weights (queries keys : ndarray A) : ndarray A :=
  row_softmax
    (np_divide_scalar (qk_scores queries keys)
                      (s_sqrt (s_of_nat (ncols keys)))).

(** ** The exercise cells *)

(** [softmax(x, axis)] of the exercise cell:
    [np.exp(x)/np.expand_dims(np.sum(np.exp(x),axis=axis),axis=1)]. *)
Definition softmax (x : ndarray A) (ax : axis) : result (ndarray A) :=
  np_divide (np_exp x) (expand_dims (np_sum (np_exp x) ax) Axis1).

(** [calculate_weights(queries, keys)] of the exercise cell. *)
Definition calculate_weights (queries keys : ndarray A) : result (ndarray A) :=
  let! dot := np_dot queries (transpose keys) in
  let! weights := softmax dot Axis1 in
  let! s0 := index (np_sum weights Axis1) 0 in
  if s_eqb s0 s_one then Ok weights else Raise AssertionError.

(** [attention_qkv(queries, keys, values)] of the exercise cell. *)
Definition attention_qkv (queries keys values : ndarray A) : result (ndarray A) :=
  let! weights := calculate_weights queries keys in
  let! attention := np_dot weights values in
  Ok attention.

(** ** The solution cell *)

(** [softmax(x, axis)] of the solution:
    [y = np.exp(x); y / np.expand_dims(np.sum(y, axis=axis), axis)]. *)
Definition softmax_solution (x : ndarray A) (ax : axis) : result (ndarray A) :=
  let y := np_exp x in
  np_divide y (expand_dims (np_sum y ax) ax).

(** [calculate_weights(queries, keys)] of the solution. *)
Definition calculate_weights_solution (queries keys : ndarray A)
  : result (ndarray A) :=
  let! prod := np_matmul queries (transpose keys) in
  let dot := np_divide_scalar prod (s_sqrt (s_of_nat (ncols keys))) in
  let! weights := softmax_solution dot Axis1 in
  let! s0 := index (np_sum weights Axis1) 0 in
  if s_eqb s0 s_one then Ok weights else Raise AssertionError.

(** [attention_qkv(queries, keys, values)] of the solution. *)
Definition attention_qkv_solution (queries keys values : ndarray A)
  : result (ndarray A) :=
  let! weights := calculate_weights_solution queries keys in
  np_matmul weights values.

(** ** Embedding lookup *)

(** [embeddings[token]]: a negative index counts from the end.  The model
    is that of indices that fit a signed 64-bit integer; for a Python int in
    [2^63, 2^64) NumPy raises [OverflowError], not the [IndexError] given
    here. *)
Definition getitem (embeddings : ndarray A) (token : Z) : result (list A) :=
  let n := Z.of_nat (nrows embeddings) in
  if (0 <=? token)%Z && (token <? n)%Z then
    Ok (row embeddings (Z.to_nat token))
  else if (- n <=? token)%Z && (token <? 0)%Z then
    Ok (row embeddings (Z.to_nat (n + token)))
  else Raise IndexError.

(** [output[i] = r] *)
Definition setitem (output : ndarray A) (i : nat) (r : list A) : ndarray A :=
  mk_ndarray (nrows output) (ncols output) (<[i := r]> (rows output)).

(** One turn of the loop of [embed]. *)
Definition embed_step (embeddings : ndarray A) (embed_size : nat)
    (output : ndarray A) (it : nat * Z) : result (ndarray A) :=
  let '(i, token) := it in
  if Z.eqb token (-1) then
    Ok (setitem output i (row (np_zeros 1 embed_size) 0))
  else
    let! r := getitem embeddings token in
    Ok (setitem output i r).

(** The row that one turn of the loop writes for [token]. *)
Definition embed_token (embeddings : ndarray A) (token : Z) : result (list A) :=
  if Z.eqb token (-1) then Ok (row (np_zeros 1 (ncols embeddings)) 0)
  else getitem embeddings token.

(** A [for] loop whose body may raise. *)
Fixpoint for_each {S I : Type} (body : S -> I -> result S) (its : list I) (s : S)
  : result S :=
  match its with
  | [] => Ok s
  | it :: its' => let! s' := body s it in for_each body its' s'
  end.

(** [enumerate(l)] *)
Definition enumerate {I : Type} (l : list I) : list (nat * I) :=
  combine (seq 0 (length l)) l.

(** [embed(tokens, embeddings)] *)
Definition embed (tokens : list Z) (embeddings : ndarray A) : result (ndarray A) :=
  let embed_size := ncols embeddings in
  let output := np_zeros (length tokens) embed_size in
  for_each (embed_step embeddings embed_size) (enumerate tokens) output.

End Numpy.

(** ** The error taxonomy of the specification *)

Inductive spec_error : Type := ShapeMismatch | EmptyInput.

(** Python's exceptions read as the errors of the specification: the
    [ValueError] of a product of misaligned shapes is [ShapeMismatch]; the
    [IndexError] and the [AssertionError] that an input without rows ends in
    are [EmptyInput]. *)
Definition spec_error_of (e : exn) : spec_error :=
  match e with
  | ValueError => ShapeMismatch
  | IndexError => EmptyInput
  | AssertionError => EmptyInput
  end.

(** C10 as stated: every negative index other than the sentinel reads the
    embedding row counted from the end. *)
Definition wraps_every_negative_index : Prop :=
  forall (embeddings : ndarray R) (k : Z),
    wf embeddings -> (k < 0)%Z -> k <> (-1)%Z ->
    exists output,
      embed [k] embeddings = Ok output /\
      rows output = [row embeddings (Z.to_nat (Z.of_nat (nrows embeddings) + k))].

(** ** Tokenizer *)

(** [s.split(sep)] for a separator of one character. *)
Fixpoint split (sep : ascii) (s : string) : list string :=
  match s with
  | EmptyString => [EmptyString]
  | String c s' =>
      if Ascii.eqb c sep then EmptyString :: split sep s'
      else match split sep s' with
           | w :: ws => String c w :: ws
           | [] => [String c EmptyString]
           end
  end.

Section Tokenizer.
(** [str.lower] *)
Variable lower : string -> string.

(** [tokenize(sentence, token_mapping)]: an absent word is the [KeyError]
    branch. *)
Definition tokenize (sentence : string) (token_mapping : gmap string Z) : list Z :=
  fold_left
    (fun tokenized word =>
       match token_mapping !! word with
       | Some t => tokenized ++ [t]
       | None => tokenized ++ [(-1)%Z]
       end)
    (split " "%char (lower sentence)) [].
End Tokenizer.

(** [str.lower] on ASCII text. *)
Definition ascii_lower_char (c : ascii) : ascii :=
  let n := nat_of_ascii c in
  if (65 <=? n)%nat && (n <=? 90)%nat then ascii_of_nat (n + 32) else c.

Fixpoint ascii_lower (s : string) : string :=
  match s with
  | EmptyString => EmptyString
  | String c s' => String (ascii_lower_char c) (ascii_lower s')
  end.

(** ** Binary64 as a range model

    A value is a real number, an infinity or NaN.  A finite result beyond the
    largest binary64 number becomes an infinity; [np.exp] of a number whose
    exponential is below half the smallest subnormal is zero.  Operations on
    infinities and NaN follow IEEE 754.  Finite results are not rounded: the
    model tells where infinities and NaN arise, not whether a sum of rounded
    weights is exactly 1. *)

Inductive fval : Type :=
| Fin (r : R)
| PInf
| NInf
| NaN.

(** The largest finite binary64 number. *)
Definition DBL_MAX : R := ((2 - / 2 ^ 52) * 2 ^ 1023)%R.

(** Half of the smallest positive binary64 number. *)
Definition EXP_UNDERFLOW : R := (/ 2 ^ 1075)%R.

Definition overflow (r : R) : fval :=
  if Rlt_dec DBL_MAX r then PInf
  else if Rlt_dec r (- DBL_MAX) then NInf
  else Fin r.

Definition f_add (a b : fval) : fval :=
  match a, b with
  | NaN, _ | _, NaN => NaN
  | PInf, NInf | NInf, PInf => NaN
  | PInf, _ | _, PInf => PInf
  | NInf, _ | _, NInf => NInf
  | Fin x, Fin y => overflow (x + y)
  end.

(** An infinity times the finite [x]. *)
Definition inf_times (x : R) (pos neg : fval) : fval :=
  if Rlt_dec 0 x then pos else if Rlt_dec x 0 then neg else NaN.

Definition f_mul (a b : fval) : fval :=
  match a, b with
  | NaN, _ | _, NaN => NaN
  | Fin x, Fin y => overflow (x * y)
  | Fin x, PInf | PInf, Fin x => inf_times x PInf NInf
  | Fin x, NInf | NInf, Fin x => inf_times x NInf PInf
  | PInf, PInf | NInf, NInf => PInf
  | PInf, NInf | NInf, PInf => NInf
  end.

Definition f_div (a b : fval) : fval :=
  match a, b with
  | NaN, _ | _, NaN => NaN
  | Fin x, Fin y =>
      if Req_dec_T y 0 then inf_times x PInf NInf else overflow (x / y)
  | Fin _, PInf | Fin _, NInf => Fin 0
  | PInf, Fin y => if Rlt_dec y 0 then NInf else PInf
  | NInf, Fin y => if Rlt_dec y 0 then PInf else NInf
  | _, _ => NaN
  end.

Definition f_exp (a : fval) : fval :=
  match a with
  | Fin x =>
      if Rlt_dec DBL_MAX (exp x) then PInf
      else if Rlt_dec (exp x) EXP_UNDERFLOW then Fin 0
      else Fin (exp x)
  | PInf => PInf
  | NInf => Fin 0
  | NaN => NaN
  end.

Definition f_sqrt (a : fval) : fval :=
  match a with
  | Fin x => if Rlt_dec x 0 then NaN else Fin (sqrt x)
  | PInf => PInf
  | NInf | NaN => NaN
  end.

Definition f_eqb (a b : fval) : bool :=
  match a, b with
  | Fin x, Fin y => if Req_dec_T x y then true else false
  | PInf, PInf | NInf, NInf => true
  | _, _ => false
  end.

#[export] Instance fval_scalar : Scalar fval := {|
  s_zero := Fin 0;
  s_one := Fin 1;
  s_add := f_add;
  s_mul := f_mul;
  s_div := f_div;
  s_exp := f_exp;
  s_sqrt := f_sqrt;
  s_of_nat := fun n => overflow (INR n);
  s_eqb := f_eqb
|}.

(** Neither NaN nor an infinity. *)
Definition is_finite (a : fval) : Prop :=
  match a with
  | Fin _ => True
  | _ => False
  end.

(** A real array read as a binary64 array of finite values. *)
Definition to_fval (X : ndarray R) : ndarray fval :=
  mk_ndarray (nrows X) (ncols X) (map (map Fin) (rows X)).

Definition all_finite (X : ndarray fval) : Prop :=
  Forall (Forall is_finite) (rows X).

(** C4 as stated: on well-formed finite inputs of matching feature
    dimension, whatever the magnitude of the scores, the weights that
    [calculate_weights] returns hold neither NaN nor an infinity. *)
Definition weights_never_nan_or_infinite : Prop :=
  forall queries keys weights : ndarray fval,
    wf queries -> wf keys -> all_finite queries -> all_finite keys ->
    ncols queries = ncols keys ->
    (1 <= nrows queries)%nat -> (1 <= nrows keys)%nat ->
    (1 <= ncols queries)%nat ->
    calculate_weights queries keys = Ok weights ->
    all_finite weights.

(** ** Binary64

    The arithmetic of NumPy's [float64] is that of Rocq's primitive floats.
    [np.exp] is the exponential of the C library and is a parameter
    [exp64]. *)

Definition binary64 (exp64 : float -> float) : Scalar float := {|
  s_zero := 0%float;
  s_one := 1%float;
  s_add := PrimFloat.add;
  s_mul := PrimFloat.mul;
  s_div := PrimFloat.div;
  s_exp := exp64;
  s_sqrt := PrimFloat.sqrt;
  s_of_nat := fun n => PrimFloat.of_uint63 (Uint63.of_Z (Z.of_nat n));
  s_eqb := PrimFloat.eqb
|}.

(** NaN, or a number whose sign bit is clear. *)
Definition not_negative (a : float) : Prop :=
  match Prim2SF a with
  | S754_nan => True
  | S754_zero s | S754_infinity s | S754_finite s _ _ => s = false
  end.

(** An infinity or NaN. *)
Definition not_finite (a : float) : Prop :=
  match Prim2SF a with
  | S754_nan | S754_infinity _ => True
  | S754_zero _ | S754_finite _ _ _ => False
  end.

(** NaN, or a number whose sign bit is [s]. *)
Definition sign_or_nan (s : bool) (x : spec_float) : Prop :=
  match x with
  | S754_nan => True
  | S754_zero s' | S754_infinity s' | S754_finite s' _ _ => s' = s
  end.

(** A finite number other than the two zeros. *)
Definition finite_nonzero (a : float) : Prop :=
  match Prim2SF a with
  | S754_finite _ _ _ => True
  | _ => False
  end.

(** One of the two zeros. *)
Definition signed_zero (a : float) : Prop :=
  match Prim2SF a with
  | S754_zero _ => True
  | _ => False
  end.

(** What is used below of the library's exponential: it is 1 at 0, it
    overflows to infinity from 710 on, and it is never negative. *)
Definition exp64_like (exp64 : float -> float) : Prop :=
  exp64 0%float = 1%float /\
  (forall x, (710 <=? x)%float = true -> exp64 x = infinity) /\
  (forall x, not_negative (exp64 x)).

Definition square (x : float) : float := (x * x)%float.

(** An exponential computed in binary64, for where an instance of [exp64]
    is needed: the cubic Taylor polynomial at [x / 1024], squared ten
    times, and infinity from 710 on. *)
Definition exp64_approx (x : float) : float :=
  if (710 <=? x)%float then infinity
  else
    let y := (x / 1024)%float in
    let p := (1 + y * (1 + y * (0.5 + y / 6)))%float in
    square (square (square (square (square
      (square (square (square (square (square p))))))))).

Definition finite_entries (X : ndarray float) : Prop :=
  Forall (Forall (fun a => PrimFloat.is_finite a = true)) (rows X).



(** C5 as stated: on every valid triple the attention is returned, and it is
    the product of the returned weights and the values. *)
Definition attention_returns_the_product : Prop :=
  forall exp64, exp64_like exp64 ->
  forall queries keys values : ndarray float,
    wf queries -> wf keys -> wf values ->
    finite_entries queries -> finite_entries keys -> finite_entries values ->
    ncols queries = ncols keys -> nrows values = nrows keys ->
    (1 <= nrows queries)%nat -> (1 <= nrows keys)%nat ->
    (1 <= ncols queries)%nat -> (1 <= ncols values)%nat ->
    exists weights output,
      @calculate_weights float (binary64 exp64) queries keys = Ok weights /\
      @np_dot float (binary64 exp64) weights values = Ok output /\
      @attention_qkv float (binary64 exp64) queries keys values = Ok output /\
      shape output = (nrows queries, ncols values).

(** C6 as stated: a single query row and a single key/value row always give
    the weights [[1.0]] and the value row as output. *)
Definition single_row_gives_one : Prop :=
  forall exp64, exp64_like exp64 ->
  forall queries keys values : ndarray float,
    wf queries -> wf keys -> wf values ->
    finite_entries queries -> finite_entries keys -> finite_entries values ->
    nrows queries = 1%nat -> nrows keys = 1%nat -> nrows values = 1%nat ->
    ncols queries = ncols keys ->
    (1 <= ncols queries)%nat -> (1 <= ncols values)%nat ->
    @calculate_weights float (binary64 exp64) queries keys
      = Ok (mk_ndarray 1 1 [[1%float]]) /\
    @attention_qkv float (binary64 exp64) queries keys values = Ok values.

(** ** The cells that run the lab

    The loaded dictionaries and embedding matrices are parameters. *)

Section Lab.
Context {A : Type} `{Scalar A}.
Variable lower : string -> string.

(** [embed(tokenize(sentence, words), embeddings)] *)
Definition embedded (sentence : string) (words : gmap string Z)
    (embeddings : ndarray A) : result (ndarray A) :=
  let tokenized := tokenize lower sentence words in
  embed tokenized embeddings.

(** [alignment = calculate_weights(embedded_fr, embedded_en)] *)
Definition alignment (sentence_en : string) (en_words : gmap string Z)
    (en_embeddings : ndarray A) (sentence_fr : string)
    (fr_words : gmap string Z) (fr_embeddings : ndarray A)
  : result (ndarray A) :=
  let! embedded_en := embedded sentence_en en_words en_embeddings in
  let! embedded_fr := embedded sentence_fr fr_words fr_embeddings in
  calculate_weights embedded_fr embedded_en.

(** [attention_qkv_result = attention_qkv(embedded_fr, embedded_en, embedded_en)] *)
Definition attention_qkv_result (sentence_en : string) (en_words : gmap string Z)
    (en_embeddings : ndarray A) (sentence_fr : string)
    (fr_words : gmap string Z) (fr_embeddings : ndarray A)
  : result (ndarray A) :=
  let! embedded_en := embedded sentence_en en_words en_embeddings in
  let! embedded_fr := embedded sentence_fr fr_words fr_embeddings in
  attention_qkv embedded_fr embedded_en embedded_en.

End Lab.

(** The number of occurrences of [c] in [s]. *)
Fixpoint count_char (c : ascii) (s : string) : nat :=
  match s with
  | EmptyString => 0
  | String c' s' => (if Ascii.eqb c' c then 1 else 0) + count_char c s'
  end.

(** * Properties *)

(** ** Arrays *)

Section NumpyFacts.
Context {A : Type} `{Scalar A}.

Lemma nth_map_seq (f : nat -> A) (n i : nat) (d : A) :
  (i < n)%nat -> nth i (map f (seq 0 n)) d = f i.
Proof.
  intros Hi.
  rewrite (nth_indep _ d (f 0%nat)) by (rewrite length_map, length_seq; exact Hi).
  rewrite (map_nth f (seq 0 n) 0%nat i), seq_nth by exact Hi.
  reflexivity.
Qed.

Lemma item_tabulate (r c : nat) (f : nat -> nat -> A) (i j : nat) :
  (i < r)%nat -> (j < c)%nat -> item (tabulate r c f) i j = f i j.
Proof.
  intros Hi Hj. unfold item, tabulate. cbn [rows].
  rewrite (nth_indep _ [] (map (fun j => f 0%nat j) (seq 0 c)))
    by (rewrite length_map, length_seq; exact Hi).
  rewrite (map_nth (fun i => map (fun j => f i j) (seq 0 c)) (seq 0 r) 0%nat i).
  rewrite seq_nth by exact Hi.
  apply nth_map_seq; exact Hj.
Qed.

Lemma tabulate_ext (r c : nat) (f g : nat -> nat -> A) :
  (forall i j, (i < r)%nat -> (j < c)%nat -> f i j = g i j) ->
  tabulate r c f = tabulate r c g.
Proof.
  intros Hfg. unfold tabulate. f_equal.
  apply map_ext_in. intros i Hi. apply in_seq in Hi.
  apply map_ext_in. intros j Hj. apply in_seq in Hj.
  apply Hfg; lia.
Qed.

Lemma wf_tabulate (r c : nat) (f : nat -> nat -> A) : wf (tabulate r c f).
Proof.
  split; cbn [rows nrows ncols tabulate].
  - now rewrite length_map, length_seq.
  - apply List.Forall_forall. intros l Hl. apply in_map_iff in Hl.
    destruct Hl as [i [<- _]]. now rewrite length_map, length_seq.
Qed.

Lemma row_tabulate (r c : nat) (f : nat -> nat -> A) (i : nat) :
  (i < r)%nat -> row (tabulate r c f) i = map (f i) (seq 0 c).
Proof.
  intros Hi. unfold row. cbn [ncols tabulate].
  apply map_ext_in. intros j Hj. apply in_seq in Hj.
  apply item_tabulate; lia.
Qed.

Lemma rows_tabulate (r c : nat) (f : nat -> nat -> A) :
  rows (tabulate r c f) = map (fun i => map (f i) (seq 0 c)) (seq 0 r).
Proof. reflexivity. Qed.

Lemma in_rows_tabulate (r c : nat) (f : nat -> nat -> A) (l : list A) :
  In l (rows (tabulate r c f)) ->
  exists i, (i < r)%nat /\ l = row (tabulate r c f) i.
Proof.
  rewrite rows_tabulate. intros Hl. apply in_map_iff in Hl.
  destruct Hl as [i [<- Hi]]. apply in_seq in Hi.
  exists i. split; [lia|]. symmetry. apply row_tabulate. lia.
Qed.

(** In a well-formed array, [X[i]] is the [i]-th stored row. *)
Lemma row_wf (X : ndarray A) (i : nat) :
  wf X -> (i < nrows X)%nat -> row X i = nth i (rows X) [].
Proof.
  intros [Hlen Hall] Hi. unfold row, item.
  assert (Hl : length (nth i (rows X) []) = ncols X).
  { rewrite List.Forall_forall in Hall. apply Hall, nth_In. lia. }
  rewrite <- Hl. generalize (nth i (rows X) []). intros l.
  apply nth_ext with (d := s_zero) (d' := s_zero).
  - now rewrite length_map, length_seq.
  - intros j Hj. rewrite length_map, length_seq in Hj.
    now apply nth_map_seq.
Qed.

Lemma bdim_same (n : nat) : bdim n n = Some n.
Proof. unfold bdim. now rewrite Nat.eqb_refl. Qed.

Lemma bdim_one (n : nat) : bdim n 1 = Some n.
Proof. unfold bdim. destruct (Nat.eqb n 1) eqn:E; [|reflexivity].
  apply Nat.eqb_eq in E. now subst. Qed.

Lemma bidx_lt (n i : nat) : (i < n)%nat -> bidx n i = i.
Proof. unfold bidx. destruct (Nat.eqb n 1) eqn:E; [|reflexivity].
  apply Nat.eqb_eq in E. lia. Qed.

(** With [axis=1] the exercise's [softmax] divides each exponential by the
    sum of the exponentials of its row. *)
Lemma softmax_axis1 (x : ndarray A) :
  softmax x Axis1 = Ok (row_softmax x).
Proof.
  unfold softmax, np_divide, row_softmax.
  cbn [np_sum expand_dims nrows ncols np_exp tabulate].
  rewrite length_map, length_seq, bdim_same, bdim_one.
  f_equal. apply tabulate_ext. intros i j Hi Hj.
  rewrite !bidx_lt by assumption.
  change (bidx 1 j) with (if Nat.eqb 1 1 then 0%nat else j). cbn [Nat.eqb].
  fold (np_exp x).
  f_equal.
  - unfold np_exp. now apply item_tabulate.
  - rewrite item_tabulate by (rewrite ?length_map, ?length_seq; lia).
    rewrite nth_map_seq by assumption.
    f_equal. unfold exp_row. apply map_ext_in. intros k Hk. apply in_seq in Hk.
    unfold np_exp. apply item_tabulate; lia.
Qed.

Lemma np_dot_transpose (Q K : ndarray A) :
  ncols Q = ncols K -> np_dot Q (transpose K) = Ok (qk_scores Q K).
Proof.
  intros Hd. unfold np_dot, qk_scores. cbn [nrows ncols transpose tabulate].
  rewrite Hd, Nat.eqb_refl. f_equal. apply tabulate_ext. intros i j Hi Hj.
  f_equal. apply map_ext_in. intros k Hk. apply in_seq in Hk.
  f_equal. unfold transpose. now rewrite item_tabulate by lia.
Qed.

Lemma np_dot_transpose_mismatch (Q K : ndarray A) :
  ncols Q <> ncols K -> np_dot Q (transpose K) = Raise ValueError.
Proof.
  intros Hd. unfold np_dot. cbn [nrows transpose tabulate].
  apply Nat.eqb_neq in Hd. now rewrite Hd.
Qed.

(** On [axis=1] the solution's [softmax] is the exercise's. *)
Lemma softmax_solution_axis1 (x : ndarray A) :
  softmax_solution x Axis1 = softmax x Axis1.
Proof. reflexivity. Qed.

End NumpyFacts.

(** ** Sums of real numbers *)

Section RealSums.
Local Open Scope R_scope.

Lemma fold_left_Rplus_acc (l : list R) (a : R) :
  fold_left Rplus l a = a + fold_left Rplus l 0.
Proof.
  revert a. induction l as [|x l IH]; intros a; cbn [fold_left].
  - lra.
  - rewrite (IH (a + x)), (IH (0 + x)). lra.
Qed.

Lemma sum_list_nil : sum_list ([] : list R) = 0.
Proof. reflexivity. Qed.

Lemma sum_list_cons (x : R) (l : list R) :
  sum_list (x :: l) = x + sum_list l.
Proof.
  unfold sum_list. cbn [fold_left s_add s_zero R_scalar].
  rewrite fold_left_Rplus_acc. lra.
Qed.

Lemma sum_list_div (l : list R) (s : R) :
  sum_list (map (fun x => x / s) l) = sum_list l / s.
Proof.
  induction l as [|x l IH]; cbn [map].
  - rewrite sum_list_nil. unfold Rdiv. lra.
  - rewrite !sum_list_cons, IH. unfold Rdiv. lra.
Qed.

Lemma sum_list_nonneg (l : list R) :
  Forall (fun x => 0 <= x) l -> 0 <= sum_list l.
Proof.
  induction 1 as [|x l Hx _ IH].
  - rewrite sum_list_nil. lra.
  - rewrite sum_list_cons. lra.
Qed.

Lemma sum_list_exp_pos (l : list R) :
  l <> [] -> 0 < sum_list (map exp l).
Proof.
  destruct l as [|x l]; [congruence|]. intros _. cbn [map].
  rewrite sum_list_cons.
  assert (0 <= sum_list (map exp l)).
  { apply sum_list_nonneg, List.Forall_forall. intros y Hy.
    apply in_map_iff in Hy. destruct Hy as [z [<- _]].
    left. apply exp_pos. }
  pose proof (exp_pos x). lra.
Qed.

Lemma s_eqb_R_refl (a : R) : s_eqb a a = true.
Proof. cbn. destruct (Req_dec_T a a); congruence. Qed.

End RealSums.

(** ** Weights over the real numbers *)

Section RealWeights.
Local Open Scope R_scope.
Implicit Types x Q K V W : ndarray R.

Lemma exp_row_map x i :
  exp_row x i = map exp (map (fun j => item x i j) (seq 0 (ncols x))).
Proof. unfold exp_row. now rewrite map_map. Qed.

Lemma exp_row_sum_pos x i : (1 <= ncols x)%nat -> 0 < sum_list (exp_row x i).
Proof.
  intros Hc. rewrite exp_row_map. apply sum_list_exp_pos.
  intros E. apply (f_equal (@length R)) in E.
  rewrite length_map, length_seq in E. cbn in E. lia.
Qed.

(** Row [i] of the softmax, as a list. *)
Lemma row_softmax_row x i :
  (i < nrows x)%nat ->
  row (row_softmax x) i =
  map (fun e => e / sum_list (exp_row x i)) (exp_row x i).
Proof.
  intros Hi. unfold row_softmax. rewrite row_tabulate by assumption.
  set (s := sum_list (exp_row x i)). unfold exp_row.
  rewrite map_map. reflexivity.
Qed.

Lemma row_softmax_sum x i :
  (i < nrows x)%nat -> (1 <= ncols x)%nat ->
  sum_list (row (row_softmax x) i) = 1.
Proof.
  intros Hi Hc. rewrite row_softmax_row, sum_list_div by assumption.
  pose proof (exp_row_sum_pos x i Hc). now field_simplify; [|lra].
Qed.

Lemma row_softmax_item_pos x i j :
  (i < nrows x)%nat -> (j < ncols x)%nat -> 0 < item (row_softmax x) i j.
Proof.
  intros Hi Hj. unfold row_softmax. rewrite item_tabulate by assumption.
  cbn [s_div s_exp R_scalar].
  apply Rdiv_lt_0_compat; [apply exp_pos | apply exp_row_sum_pos; lia].
Qed.

(** The assertion of [calculate_weights] holds for the softmax of any score
    matrix with at least one row and one column. *)
Lemma assert_row0_passes x :
  (1 <= nrows x)%nat -> (1 <= ncols x)%nat ->
  (let! s0 := index (np_sum (row_softmax x) Axis1) 0 in
   if s_eqb s0 s_one then Ok (row_softmax x) else Raise AssertionError)
  = Ok (row_softmax x).
Proof.
  intros Hr Hc. cbn [np_sum]. unfold index.
  change (nrows (row_softmax x)) with (nrows x).
  change (ncols (row_softmax x)) with (ncols x).
  destruct (nrows x) as [|m] eqn:Em; [lia|].
  cbn [seq map nth_error bind].
  fold (row (A := R) (row_softmax x) 0).
  assert (E : sum_list (row (row_softmax x) 0) = 1).
  { apply row_softmax_sum; lia. }
  unfold row in E |- *. change (ncols (row_softmax x)) with (ncols x) in E.
  rewrite E. cbn [s_one R_scalar]. now rewrite s_eqb_R_refl.
Qed.

End RealWeights.

(** Bring the arguments of [exp] in [E] to normal form. *)
Ltac norm_exp_in E :=
  repeat match type of E with
         | context [exp ?a] => progress (ring_simplify a in E)
         end.

(** Evaluate the weights of concrete arrays in [E]. *)
Ltac eval_weights_in E :=
  cbv [scaled_dot_product_weights np_divide_scalar row_softmax exp_row
       qk_scores np_scale item tabulate nrows ncols rows seq map nth sum_list
       fold_left s_add s_mul s_div s_exp s_sqrt s_of_nat s_zero R_scalar] in E.

Section RealAttention.
Local Open Scope R_scope.
Implicit Types x Q K V W : ndarray R.

(** On inputs of matching feature dimension with at least one row each,
    the exercise's [calculate_weights] returns the row-wise softmax of the
    unscaled scores. *)
Lemma calculate_weights_eq Q K :
  ncols Q = ncols K -> (1 <= nrows Q)%nat -> (1 <= nrows K)%nat ->
  calculate_weights Q K = Ok (row_softmax (qk_scores Q K)).
Proof.
  intros Hd Hm Hn. unfold calculate_weights.
  rewrite np_dot_transpose by assumption. cbn [bind].
  rewrite softmax_axis1. cbn [bind].
  now apply assert_row0_passes.
Qed.

(** The solution's [calculate_weights] returns the softmax of the scaled
    scores. *)
Lemma calculate_weights_solution_eq Q K :
  ncols Q = ncols K -> (1 <= nrows Q)%nat -> (1 <= nrows K)%nat ->
  calculate_weights_solution Q K = Ok (scaled_dot_product_weights Q K).
Proof.
  intros Hd Hm Hn. unfold calculate_weights_solution, np_matmul.
  rewrite np_dot_transpose by assumption. cbn [bind].
  rewrite softmax_solution_axis1, softmax_axis1. cbn [bind].
  now apply assert_row0_passes.
Qed.

Lemma sum_list_one (a : R) : sum_list [a] = a.
Proof. rewrite sum_list_cons, sum_list_nil. lra. Qed.

(** A softmax over two scores determines their difference. *)
Lemma softmax2_inj (a b c : R) :
  exp a / (exp a + exp c) = exp b / (exp b + exp c) -> a = b.
Proof.
  intros E. pose proof (exp_pos a). pose proof (exp_pos b).
  pose proof (exp_pos c). apply exp_inv.
  apply (f_equal (fun t => t * (exp a + exp c) * (exp b + exp c))) in E.
  field_simplify in E; nra.
Qed.

(** C7. There are queries, keys and a positive constant c such that
    [calculate_weights] on (c * queries, c * keys) differs from
    [calculate_weights] on (queries, keys): one query [[1]], keys
    [[1]; [0]] and c = 2. *)
Theorem weights_not_scale_invariant :
  exists Q K c W W',
    0 < c /\ wf Q /\ wf K /\ ncols Q = ncols K /\
    (1 <= nrows Q)%nat /\ (1 <= nrows K)%nat /\ (1 <= ncols Q)%nat /\
    calculate_weights Q K = Ok W /\
    calculate_weights (np_scale c Q) (np_scale c K) = Ok W' /\
    W <> W'.
Proof.
  exists (mk_ndarray 1 1 [[1]]), (mk_ndarray 2 1 [[1]; [0]]), 2.
  eexists _, _.
  split; [lra|]. split; [repeat constructor|]. split; [repeat constructor|].
  split; [reflexivity|]. split; [cbn; lia|]. split; [cbn; lia|].
  split; [cbn; lia|].
  split; [apply calculate_weights_eq; cbn; lia|].
  split; [apply calculate_weights_eq; cbn; lia|].
  intros E. apply (f_equal (fun W => item W 0 0)) in E.
  eval_weights_in E. norm_exp_in E. rewrite !Rplus_0_l in E. apply softmax2_inj in E. lra.
Qed.

(** The solution's weights change under the same scaling. *)
Lemma solution_weights_not_scale_invariant :
  exists Q K c W W',
    0 < c /\ wf Q /\ wf K /\ ncols Q = ncols K /\
    (1 <= nrows Q)%nat /\ (1 <= nrows K)%nat /\ (1 <= ncols Q)%nat /\
    calculate_weights_solution Q K = Ok W /\
    calculate_weights_solution (np_scale c Q) (np_scale c K) = Ok W' /\
    W <> W'.
Proof.
  exists (mk_ndarray 1 1 [[1]]), (mk_ndarray 2 1 [[1]; [0]]), 2.
  eexists _, _.
  split; [lra|]. split; [repeat constructor|]. split; [repeat constructor|].
  split; [reflexivity|]. split; [cbn; lia|]. split; [cbn; lia|].
  split; [cbn; lia|].
  split; [apply calculate_weights_solution_eq; cbn; lia|].
  split; [apply calculate_weights_solution_eq; cbn; lia|].
  intros E. apply (f_equal (fun W => item W 0 0)) in E.
  eval_weights_in E. cbn [INR] in E. rewrite !sqrt_1 in E.
  replace ((0 + 1 * 1) / 1) with 1 in E by lra.
  replace ((0 + 1 * 0) / 1) with 0 in E by lra.
  replace ((0 + 2 * 1 * (2 * 1)) / 1) with 4 in E by lra.
  replace ((0 + 2 * 1 * (2 * 0)) / 1) with 0 in E by lra.
  rewrite !Rplus_0_l in E. apply softmax2_inj in E. lra.
Qed.

(** C1. On queries [[1, 0, 0, 0]] and keys [[1, 0, 0, 0], [0, 0, 0, 0]]
    (d = 4) the exercise's [calculate_weights] returns weights that differ
    from softmax((Q K^T) / sqrt(d)): it applies the softmax to the unscaled
    scores. *)
Theorem calculate_weights_omits_scaling :
  let Q := mk_ndarray 1 4 [[1; 0; 0; 0]] in
  let K := mk_ndarray 2 4 [[1; 0; 0; 0]; [0; 0; 0; 0]] in
  calculate_weights Q K = Ok (row_softmax (qk_scores Q K)) /\
  calculate_weights_solution Q K = Ok (scaled_dot_product_weights Q K) /\
  item (row_softmax (qk_scores Q K)) 0 0 = exp 1 / (exp 1 + exp 0) /\
  item (scaled_dot_product_weights Q K) 0 0 = exp (1 / 2) / (exp (1 / 2) + exp 0) /\
  row_softmax (qk_scores Q K) <> scaled_dot_product_weights Q K.
Proof.
  intros Q K.
  assert (E4 : sqrt (INR 4) = 2).
  { replace (INR 4) with (2 * 2) by (cbn; lra). apply sqrt_square. lra. }
  assert (Hcode : item (row_softmax (qk_scores Q K)) 0 0
                  = exp 1 / (exp 1 + exp 0)).
  { set (w := item _ _ _). assert (E : w = w) by reflexivity.
    unfold w at 1 in E. unfold Q, K in E. eval_weights_in E. norm_exp_in E.
    rewrite !Rplus_0_l in E. now rewrite <- E. }
  assert (Hspec : item (scaled_dot_product_weights Q K) 0 0
                  = exp (1 / 2) / (exp (1 / 2) + exp 0)).
  { set (w := item _ _ _). assert (E : w = w) by reflexivity.
    unfold w at 1 in E. unfold Q, K in E. eval_weights_in E. rewrite !E4 in E.
    replace ((0 + 1 * 1 + 0 * 0 + 0 * 0 + 0 * 0) / 2) with (1 / 2) in E by lra.
    replace ((0 + 1 * 0 + 0 * 0 + 0 * 0 + 0 * 0) / 2) with 0 in E by lra.
    rewrite !Rplus_0_l in E. now rewrite <- E. }
  split; [apply calculate_weights_eq; cbn; lia|].
  split; [apply calculate_weights_solution_eq; cbn; lia|].
  split; [exact Hcode|]. split; [exact Hspec|].
  intros E. apply (f_equal (fun W => item W 0 0)) in E.
  rewrite Hcode, Hspec in E. apply softmax2_inj in E. lra.
Qed.

End RealAttention.

(** ** Tokenizer and embedding lookup *)

Section TokenizerFacts.
Variable lower : string -> string.

(** The index of a word: its entry in the mapping, or the sentinel. *)
Lemma tokenize_map (sentence : string) (token_mapping : gmap string Z) :
  tokenize lower sentence token_mapping =
  map (fun word => default (-1)%Z (token_mapping !! word))
      (split " "%char (lower sentence)).
Proof.
  unfold tokenize.
  enough (Hacc : forall ws acc,
    fold_left
      (fun tokenized word =>
         match token_mapping !! word with
         | Some t => tokenized ++ [t]
         | None => tokenized ++ [(-1)%Z]
         end) ws acc
    = acc ++ map (fun word => default (-1)%Z (token_mapping !! word)) ws)
    by apply Hacc.
  induction ws as [|w ws IH]; intros acc; cbn [fold_left map].
  - now rewrite app_nil_r.
  - destruct (token_mapping !! w); cbn [default];
      rewrite IH, <- app_assoc; reflexivity.
Qed.

Lemma tokenize_length (sentence : string) (token_mapping : gmap string Z) :
  length (tokenize lower sentence token_mapping) =
  length (split " "%char (lower sentence)).
Proof. now rewrite tokenize_map, length_map. Qed.

End TokenizerFacts.

Lemma ascii_lower_char_idem (c : ascii) :
  ascii_lower_char (ascii_lower_char c) = ascii_lower_char c.
Proof.
  destruct c as [[] [] [] [] [] [] [] []]; reflexivity.
Qed.

Lemma ascii_lower_idem (s : string) : ascii_lower (ascii_lower s) = ascii_lower s.
Proof.
  induction s as [|c s IH]; cbn [ascii_lower]; [reflexivity|].
  now rewrite ascii_lower_char_idem, IH.
Qed.

Example tokenize_example :
  tokenize ascii_lower "The agreement on THE Area"
           (list_to_map [("the", 7%Z); ("agreement", 12%Z); ("area", 3%Z)])
  = [7; 12; -1; 7; 3]%Z.
Proof. vm_compute. reflexivity. Qed.

Example split_example : split " " " a  b" = [""; "a"; ""; "b"].
Proof. reflexivity. Qed.

Section EmbedFacts.
Context {A : Type} `{Scalar A}.
Implicit Types (E output : ndarray A) (tokens : list Z).

Lemma map_const_seq (a : A) (s c : nat) :
  map (fun _ => a) (seq s c) = repeat a c.
Proof.
  revert s. induction c as [|c IH]; intros s; cbn [seq map repeat];
    [reflexivity|]. now rewrite IH.
Qed.

Lemma zero_row (c : nat) : row (np_zeros 1 c) 0 = repeat s_zero c.
Proof.
  unfold np_zeros. rewrite row_tabulate by lia. apply map_const_seq.
Qed.

Lemma embed_token_sentinel E :
  embed_token E (-1) = Ok (repeat s_zero (ncols E)).
Proof. unfold embed_token. cbn [Z.eqb Pos.eqb]. now rewrite zero_row. Qed.

Lemma embed_token_nonneg E (t : Z) :
  (0 <= t < Z.of_nat (nrows E))%Z ->
  embed_token E t = Ok (row E (Z.to_nat t)).
Proof.
  intros Ht. unfold embed_token, getitem.
  destruct (Z.eqb_spec t (-1)); [lia|].
  destruct (Z.leb_spec 0 t); [|lia].
  destruct (Z.ltb_spec t (Z.of_nat (nrows E))); [|lia]. reflexivity.
Qed.

Lemma embed_token_wrap E (t : Z) :
  (- Z.of_nat (nrows E) <= t < -1)%Z ->
  embed_token E t = Ok (row E (Z.to_nat (Z.of_nat (nrows E) + t))).
Proof.
  intros Ht. unfold embed_token, getitem.
  destruct (Z.eqb_spec t (-1)); [lia|].
  destruct (Z.leb_spec 0 t); [lia|]. cbn [andb].
  destruct (Z.leb_spec (- Z.of_nat (nrows E)) t); [|lia].
  destruct (Z.ltb_spec t 0); [|lia]. reflexivity.
Qed.

Lemma embed_token_out_of_bounds E (t : Z) :
  (t < - Z.of_nat (nrows E) \/ Z.of_nat (nrows E) <= t)%Z -> t <> (-1)%Z ->
  embed_token E t = Raise IndexError.
Proof.
  intros Ht Hs. unfold embed_token, getitem.
  destruct (Z.eqb_spec t (-1)); [lia|].
  destruct (Z.leb_spec 0 t), (Z.ltb_spec t (Z.of_nat (nrows E)));
    cbn [andb]; try lia;
    destruct (Z.leb_spec (- Z.of_nat (nrows E)) t), (Z.ltb_spec t 0);
    cbn [andb]; try lia; reflexivity.
Qed.

(** The sentinel and the indices within bounds, counted from either end,
    are the tokens that [embed] accepts. *)
Lemma embed_token_ok E (t : Z) :
  (t = -1 \/ - Z.of_nat (nrows E) <= t < Z.of_nat (nrows E))%Z ->
  exists r, embed_token E t = Ok r /\ length r = ncols E.
Proof.
  intros Ht. destruct (Z.eq_dec t (-1)%Z) as [->|Hs].
  - eexists. split; [apply embed_token_sentinel|]. apply repeat_length.
  - destruct (Z_lt_le_dec t 0).
    + eexists. split; [apply embed_token_wrap; lia|].
      unfold row. now rewrite length_map, length_seq.
    + eexists. split; [apply embed_token_nonneg; lia|].
      unfold row. now rewrite length_map, length_seq.
Qed.

Lemma embed_step_token E output (i : nat) (t : Z) :
  embed_step E (ncols E) output (i, t) =
  (let! r := embed_token E t in Ok (setitem output i r)).
Proof.
  unfold embed_step, embed_token. now destruct (Z.eqb t (-1)).
Qed.

(** The loop of [embed] after [length done] turns: the rows written so far
    are [done], and the remaining tokens [tokens] overwrite [rest]. *)
Lemma embed_loop_ok E tokens : forall (done rest rs : list (list A)) (n c : nat),
  length rest = length tokens ->
  Forall2 (fun t r => embed_token E t = Ok r) tokens rs ->
  for_each (embed_step E (ncols E))
           (combine (seq (length done) (length tokens)) tokens)
           (mk_ndarray n c (done ++ rest))
  = Ok (mk_ndarray n c (done ++ rs)).
Proof.
  induction tokens as [|t tokens IH]; intros done rest rs n c Hlen Hall.
  - inversion Hall; subst. destruct rest; [reflexivity|discriminate].
  - inversion Hall as [|? r ? rs' Ht Hrs]; subst.
    destruct rest as [|r0 rest]; [discriminate|].
    cbn [length seq combine for_each].
    rewrite embed_step_token, Ht. cbn [bind]. unfold setitem.
    cbn [nrows ncols rows].
    rewrite insert_app_r_alt by lia. rewrite Nat.sub_diag. cbn [insert].
    change (<[0%nat := r]> (r0 :: rest)) with (r :: rest).
    specialize (IH (done ++ [r]) rest rs' n c).
    rewrite length_app, Nat.add_1_r, <- !app_assoc in IH.
    apply IH; [now injection Hlen | assumption].
Qed.

(** The loop stops at the first token that is out of bounds. *)
Lemma embed_loop_raises E tokens : forall (k : nat) output,
  Exists (fun t => embed_token E t = Raise IndexError) tokens ->
  (forall t, In t tokens ->
     embed_token E t = Raise IndexError \/ exists r, embed_token E t = Ok r) ->
  for_each (embed_step E (ncols E))
           (combine (seq k (length tokens)) tokens) output
  = Raise IndexError.
Proof.
  induction tokens as [|t tokens IH]; intros k output Hex Hall.
  - inversion Hex.
  - cbn [length seq combine for_each]. rewrite embed_step_token.
    destruct (Hall t (or_introl eq_refl)) as [Ht|[r Ht]]; rewrite Ht;
      cbn [bind]; [reflexivity|].
    apply IH.
    + inversion Hex; subst; [congruence|assumption].
    + intros t' Ht'. apply Hall. now right.
Qed.

Lemma embed_token_total E (t : Z) :
  embed_token E t = Raise IndexError \/ exists r, embed_token E t = Ok r.
Proof.
  unfold embed_token, getitem.
  destruct (Z.eqb t (-1)); [right; eauto|].
  destruct (_ && _); [right; eauto|].
  destruct (_ && _); [right; eauto|]. now left.
Qed.

(** When every token has a row, [embed] returns those rows in order. *)
Lemma embed_ok E tokens (rs : list (list A)) :
  Forall2 (fun t r => embed_token E t = Ok r) tokens rs ->
  embed tokens E = Ok (mk_ndarray (length tokens) (ncols E) rs).
Proof.
  intros Hall. unfold embed, enumerate, np_zeros, tabulate.
  apply (embed_loop_ok E tokens []
           (map (fun _ => map (fun _ => s_zero) (seq 0 (ncols E)))
                (seq 0 (length tokens))) rs); [|assumption].
  now rewrite length_map, length_seq.
Qed.

Lemma embed_rows_exist E tokens :
  (forall t, In t tokens ->
     (t = -1 \/ - Z.of_nat (nrows E) <= t < Z.of_nat (nrows E))%Z) ->
  exists rs, Forall2 (fun t r => embed_token E t = Ok r) tokens rs /\
             Forall (fun r => length r = ncols E) rs.
Proof.
  induction tokens as [|t tokens IH]; intros Hv.
  - exists []. split; constructor.
  - destruct (embed_token_ok E t) as [r [Hr Hl]]; [apply Hv; now left|].
    destruct IH as [rs [Hrs Hls]]; [intros t' Ht'; apply Hv; now right|].
    exists (r :: rs). split; constructor; assumption.
Qed.

(** Either every token has a row, or one of them is out of bounds. *)
Lemma tokens_rows_or_raise E tokens :
  (exists rs, Forall2 (fun t r => embed_token E t = Ok r) tokens rs) \/
  Exists (fun t => embed_token E t = Raise IndexError) tokens.
Proof.
  induction tokens as [|t tokens IH].
  - left. exists []. constructor.
  - destruct (embed_token_total E t) as [Ht|[r Ht]].
    + right. now constructor.
    + destruct IH as [[rs Hrs]|Hex].
      * left. exists (r :: rs). now constructor.
      * right. now constructor 2.
Qed.

Lemma embed_raises E tokens :
  Exists (fun t => embed_token E t = Raise IndexError) tokens ->
  embed tokens E = Raise IndexError.
Proof.
  intros Hex. unfold embed, enumerate.
  apply embed_loop_raises; [assumption|].
  intros t _. apply embed_token_total.
Qed.

(** A token below [-vocabulary_size], or at least [vocabulary_size], makes
    [embed] raise. *)
Lemma embed_out_of_bounds E tokens (k : Z) :
  In k tokens ->
  (k < - Z.of_nat (nrows E) \/ Z.of_nat (nrows E) <= k)%Z -> k <> (-1)%Z ->
  embed tokens E = Raise IndexError.
Proof.
  intros Hin Hk Hs. unfold embed, enumerate.
  apply embed_loop_raises.
  - apply List.Exists_exists. exists k. split; [assumption|].
    now apply embed_token_out_of_bounds.
  - intros t _. apply embed_token_total.
Qed.

End EmbedFacts.

Lemma lookup_map {X Y : Type} (f : X -> Y) (l : list X) (i : nat) :
  map f l !! i = f <$> (l !! i).
Proof.
  revert i. induction l as [|x l IH]; intros [|i]; cbn; auto.
Qed.

Section Claims_Tokens.
Context {A : Type} `{Scalar A}.

(** C8. A word absent from the mapping is tokenized as -1, and no error is
    raised.  [embed] maps the sentinel -1 to a row of zeros as long as the
    embedding matrix has columns: on the token list [-1] alone, at every
    sentinel position of any array it returns, and it does return an array
    whenever the other tokens are within the bounds of the matrix. *)
Theorem unknown_words_embed_to_zero_rows :
  (forall lower sentence (token_mapping : gmap string Z) (i : nat) word,
     split " "%char (lower sentence) !! i = Some word ->
     token_mapping !! word = None ->
     tokenize lower sentence token_mapping !! i = Some (-1)%Z) /\
  (forall embeddings : ndarray A,
     embed [(-1)%Z] embeddings
     = Ok (mk_ndarray 1 (ncols embeddings) [repeat s_zero (ncols embeddings)])) /\
  (forall (embeddings : ndarray A) (tokens : list Z) output,
     embed tokens embeddings = Ok output ->
     forall i : nat, tokens !! i = Some (-1)%Z ->
       rows output !! i = Some (repeat s_zero (ncols embeddings))) /\
  (forall (embeddings : ndarray A) (tokens : list Z),
     (forall t, In t tokens ->
        (t = -1 \/ - Z.of_nat (nrows embeddings) <= t
                              < Z.of_nat (nrows embeddings))%Z) ->
     exists output,
       embed tokens embeddings = Ok output /\
       wf output /\ shape output = (length tokens, ncols embeddings)).
Proof.
  split; [|split; [|split]].
  - intros lower sentence token_mapping i word Hw Hm.
    rewrite tokenize_map, lookup_map, Hw. cbn. now rewrite Hm.
  - intros E. apply (embed_ok E [(-1)%Z]). repeat constructor.
    apply embed_token_sentinel.
  - intros E tokens output Ho i Hi.
    destruct (tokens_rows_or_raise E tokens) as [[rs Hrs]|Hex].
    + rewrite (embed_ok E tokens rs Hrs) in Ho. injection Ho as <-. cbn [rows].
      destruct (Forall2_lookup_l _ _ _ _ _ Hrs Hi) as [r [Hr Hz]].
      rewrite embed_token_sentinel in Hz. congruence.
    + rewrite (embed_raises E tokens Hex) in Ho. discriminate.
  - intros E tokens Hv.
    destruct (embed_rows_exist E tokens Hv) as [rs [Hrs Hls]].
    exists (mk_ndarray (length tokens) (ncols E) rs).
    split; [now apply embed_ok|].
    split; [split; cbn [rows nrows ncols];
            [symmetry; eapply Forall2_length; eassumption | assumption]|].
    reflexivity.
Qed.

(** C10, as the code has it.  A negative token k other than -1 with
    -vocabulary_size <= k reads embedding row vocabulary_size + k; a token
    below -vocabulary_size makes [embed] raise [IndexError]. *)
Theorem embed_wraps_negative_index (embeddings : ndarray A) (tokens : list Z) :
  (forall (i : nat) (k : Z),
     (forall t, In t tokens ->
        (t = -1 \/ - Z.of_nat (nrows embeddings) <= t
                              < Z.of_nat (nrows embeddings))%Z) ->
     tokens !! i = Some k ->
     (- Z.of_nat (nrows embeddings) <= k < -1)%Z ->
     exists output,
       embed tokens embeddings = Ok output /\
       rows output !! i =
       Some (row embeddings (Z.to_nat (Z.of_nat (nrows embeddings) + k)))) /\
  (forall k : Z,
     In k tokens -> (k < - Z.of_nat (nrows embeddings))%Z -> k <> (-1)%Z ->
     embed tokens embeddings = Raise IndexError).
Proof.
  split.
  - intros i k Hv Hi Hk.
    destruct (embed_rows_exist embeddings tokens Hv) as [rs [Hrs _]].
    exists (mk_ndarray (length tokens) (ncols embeddings) rs).
    split; [now apply embed_ok|]. cbn [rows].
    destruct (Forall2_lookup_l _ _ _ _ _ Hrs Hi) as [r [Hr Hz]].
    rewrite embed_token_wrap in Hz by assumption. congruence.
  - intros k Hin Hk Hs. apply (embed_out_of_bounds embeddings tokens k);
      [assumption | now left | assumption].
Qed.

End Claims_Tokens.

Section Claims_Lower.
Variable lower : string -> string.
Hypothesis lower_idempotent : forall s, lower (lower s) = lower s.

(** C9. [tokenize] lowercases the sentence before the lookup: a sentence
    and its lowercase form have the same tokens, and so have two sentences
    with the same lowercase form.  The lowercase of a lowercase string is
    taken to be itself. *)
Theorem tokenize_ignores_case (sentence : string) (token_mapping : gmap string Z) :
  tokenize lower sentence token_mapping
    = tokenize lower (lower sentence) token_mapping /\
  (forall sentence', lower sentence = lower sentence' ->
     tokenize lower sentence token_mapping
       = tokenize lower sentence' token_mapping).
Proof using lower_idempotent.
  split.
  - unfold tokenize. now rewrite lower_idempotent.
  - intros sentence' E. unfold tokenize. now rewrite E.
Qed.

End Claims_Lower.

(** ** Instances on concrete inputs *)

Section Instances.
Local Open Scope R_scope.

Lemma unknown_words_embed_to_zero_rows_witness :
  tokenize ascii_lower "Hello world" {["hello" := 0%Z]} !! 1%nat = Some (-1)%Z /\
  (forall i : nat, [(-1)%Z] !! i = Some (-1)%Z ->
     rows (mk_ndarray 1 2 [[0; 0]]) !! i = Some (repeat 0 2)) /\
  exists output,
    embed [(-1)%Z; 0%Z] (mk_ndarray 1 2 [[5; 6]]) = Ok output /\
    wf output /\ shape output = (2%nat, 2%nat).
Proof.
  split; [|split].
  - apply (proj1 (@unknown_words_embed_to_zero_rows R R_scalar)
             ascii_lower "Hello world" {["hello" := 0%Z]} 1%nat "world").
    + reflexivity.
    + vm_compute. reflexivity.
  - apply (proj1 (proj2 (proj2 (@unknown_words_embed_to_zero_rows R R_scalar)))
             (mk_ndarray 1 2 [[5; 6]]) [(-1)%Z] (mk_ndarray 1 2 [[0; 0]])).
    apply (proj1 (proj2 (@unknown_words_embed_to_zero_rows R R_scalar))
             (mk_ndarray 1 2 [[5; 6]])).
  - apply (proj2 (proj2 (proj2 (@unknown_words_embed_to_zero_rows R R_scalar)))
             (mk_ndarray 1 2 [[5; 6]]) [(-1)%Z; 0%Z]).
    intros t [<-|[<-|[]]]; cbn; lia.
Defined.

Lemma tokenize_ignores_case_witness :
  tokenize ascii_lower "The Cat" {["the" := 0%Z]}
    = tokenize ascii_lower (ascii_lower "The Cat") {["the" := 0%Z]} /\
  (forall sentence', ascii_lower "The Cat" = ascii_lower sentence' ->
     tokenize ascii_lower "The Cat" {["the" := 0%Z]}
       = tokenize ascii_lower sentence' {["the" := 0%Z]}).
Proof.
  apply (tokenize_ignores_case ascii_lower ascii_lower_idem
           "The Cat" {["the" := 0%Z]}).
Defined.

Lemma embed_wraps_negative_index_witness :
  (exists output,
     embed [(-2)%Z] (mk_ndarray 2 1 [[5]; [6]]) = Ok output /\
     rows output !! 0%nat = Some (row (mk_ndarray 2 1 [[5]; [6]]) 0)) /\
  embed [(-3)%Z] (mk_ndarray 2 1 [[5]; [6]]) = Raise IndexError.
Proof.
  split.
  - apply (proj1 (@embed_wraps_negative_index R R_scalar
                    (mk_ndarray 2 1 [[5]; [6]]) [(-2)%Z]) 0%nat (-2)%Z).
    + intros t [<-|[]]. cbn. lia.
    + reflexivity.
    + cbn. lia.
  - apply (proj2 (@embed_wraps_negative_index R R_scalar
                    (mk_ndarray 2 1 [[5]; [6]]) [(-3)%Z]) (-3)%Z).
    + now left.
    + cbn. lia.
    + lia.
Defined.

(** C10, as stated, fails: with two embedding rows the token -3 raises
    [IndexError]. *)
Lemma negative_index_below_range :
  ~ wraps_every_negative_index.
Proof.
  intros Hc.
  destruct (Hc (mk_ndarray 2 1 [[5]; [6]]) (-3)%Z) as [output [Ho _]].
  - split; [reflexivity | repeat constructor].
  - lia.
  - lia.
  - rewrite (embed_out_of_bounds (mk_ndarray 2 1 [[5]; [6]]) [(-3)%Z] (-3)%Z)
      in Ho; [discriminate | now left | cbn; lia | lia].
Qed.

End Instances.

(** ** The binary64 range *)

Section Binary64Range.
Local Open Scope R_scope.

Lemma DBL_MAX_lower : 2 ^ 1023 <= DBL_MAX.
Proof.
  unfold DBL_MAX.
  assert (0 < 2 ^ 1023) by (apply pow_lt; lra).
  assert (/ 2 ^ 52 <= 1).
  { rewrite <- Rinv_1. apply Rinv_le_contravar; [lra|].
    apply pow_R1_Rle. lra. }
  nra.
Qed.

Lemma DBL_MAX_upper : DBL_MAX < 2 ^ 1024.
Proof.
  unfold DBL_MAX.
  assert (0 < 2 ^ 1023) by (apply pow_lt; lra).
  assert (0 < / 2 ^ 52) by (apply Rinv_0_lt_compat, pow_lt; lra).
  change (2 ^ 1024) with (2 * 2 ^ 1023). nra.
Qed.

Lemma DBL_MAX_million : 1000000 <= DBL_MAX.
Proof.
  apply Rle_trans with (2 ^ 20); [simpl; lra|].
  apply Rle_trans with (2 ^ 1023); [|apply DBL_MAX_lower].
  apply Rle_pow; [lra|lia].
Qed.

Lemma EXP_UNDERFLOW_le_1 : EXP_UNDERFLOW <= 1.
Proof.
  unfold EXP_UNDERFLOW. rewrite <- Rinv_1.
  apply Rinv_le_contravar; [lra|]. apply pow_R1_Rle. lra.
Qed.

Lemma overflow_fin (r : R) :
  - DBL_MAX <= r <= DBL_MAX -> overflow r = Fin r.
Proof.
  intros [Hl Hu]. unfold overflow.
  destruct (Rlt_dec DBL_MAX r); [lra|].
  destruct (Rlt_dec r (- DBL_MAX)); [lra|]. reflexivity.
Qed.

Lemma f_exp_fin (s : R) :
  EXP_UNDERFLOW <= exp s -> exp s <= DBL_MAX -> f_exp (Fin s) = Fin (exp s).
Proof.
  intros Hl Hu. unfold f_exp.
  destruct (Rlt_dec DBL_MAX (exp s)); [lra|].
  destruct (Rlt_dec (exp s) EXP_UNDERFLOW); [lra|]. reflexivity.
Qed.

Lemma f_exp_overflow (s : R) : DBL_MAX < exp s -> f_exp (Fin s) = PInf.
Proof.
  intros Ho. unfold f_exp. destruct (Rlt_dec DBL_MAX (exp s)); [reflexivity|lra].
Qed.

Lemma exp_INR_mult (n : nat) (x : R) : exp (INR n * x) = exp x ^ n.
Proof.
  induction n as [|n IH].
  - cbn [INR pow]. rewrite Rmult_0_l. apply exp_0.
  - rewrite S_INR, Rmult_plus_distr_r, Rmult_1_l, exp_plus, IH.
    cbn [pow]. ring.
Qed.

(** [np.exp(1e4)] overflows. *)
Lemma exp_10000_overflows : DBL_MAX < exp 10000.
Proof.
  apply Rlt_le_trans with (2 ^ 1024); [apply DBL_MAX_upper|].
  replace 10000 with (INR 1024 * (10000 / 1024)).
  - rewrite exp_INR_mult. apply pow_incr. split; [lra|].
    left. apply Rlt_trans with (1 + 10000 / 1024); [lra|].
    apply exp_ineq1. lra.
  - replace (INR 1024) with 1024; [field|].
    change 1024 with (IZR (Z.of_nat 1024)). now rewrite <- INR_IZR_INZ.
Qed.

End Binary64Range.

(** ** Weights in the binary64 range model *)

Section RangeWeights.
Local Open Scope R_scope.

Lemma f_add_fin (a b : R) :
  - DBL_MAX <= a + b <= DBL_MAX -> f_add (Fin a) (Fin b) = Fin (a + b).
Proof. intros Hr. cbn [f_add]. now apply overflow_fin. Qed.

Lemma f_mul_fin (a b : R) :
  - DBL_MAX <= a * b <= DBL_MAX -> f_mul (Fin a) (Fin b) = Fin (a * b).
Proof. intros Hr. cbn [f_mul]. now apply overflow_fin. Qed.

Lemma f_div_fin (a b : R) :
  b <> 0 -> - DBL_MAX <= a / b <= DBL_MAX ->
  f_div (Fin a) (Fin b) = Fin (a / b).
Proof.
  intros Hb Hr. cbn [f_div]. destruct (Req_dec_T b 0); [contradiction|].
  now apply overflow_fin.
Qed.

Lemma f_eqb_fin (a b : R) : a = b -> f_eqb (Fin a) (Fin b) = true.
Proof. intros ->. cbn [f_eqb]. destruct (Req_dec_T b b); congruence. Qed.

Lemma item_to_fval (X : ndarray R) (i j : nat) :
  item (to_fval X) i j = Fin (item X i j).
Proof.
  unfold item, to_fval. cbn [rows s_zero fval_scalar R_scalar].
  change (@nil fval) with (map Fin []).
  now rewrite (map_nth (map Fin)), (map_nth Fin).
Qed.

(** Scores of 0 and 1e4: the first row of weights is [1], the second is
    NaN, and the assertion on the first row lets the result through. *)
Example calculate_weights_overflow :
  calculate_weights (mk_ndarray 2 1 [[Fin 0]; [Fin 100]])
                    (mk_ndarray 1 1 [[Fin 100]])
  = Ok (mk_ndarray 2 1 [[Fin 1]; [NaN]]).
Proof.
  pose proof DBL_MAX_million as HM.
  cbv [calculate_weights np_dot transpose softmax np_divide np_exp np_sum
       expand_dims bdim bidx item tabulate nrows ncols rows seq map nth
       sum_list fold_left bind index nth_error Nat.eqb length
       s_add s_mul s_div s_exp s_zero s_one s_eqb fval_scalar].
  assert (E0 : f_add (Fin 0) (f_mul (Fin 0) (Fin 100)) = Fin 0).
  { rewrite f_mul_fin by lra. rewrite f_add_fin by lra. f_equal. lra. }
  assert (E1 : f_add (Fin 0) (f_mul (Fin 100) (Fin 100)) = Fin 10000).
  { rewrite f_mul_fin by lra. rewrite f_add_fin by lra. f_equal. lra. }
  assert (X0 : f_exp (Fin 0) = Fin 1).
  { rewrite f_exp_fin; rewrite exp_0;
      [reflexivity | apply EXP_UNDERFLOW_le_1 | lra]. }
  assert (S0 : f_add (Fin 0) (Fin 1) = Fin 1).
  { rewrite f_add_fin by lra. f_equal. lra. }
  assert (D0 : f_div (Fin 1) (Fin 1) = Fin 1).
  { rewrite f_div_fin by lra. f_equal. lra. }
  rewrite E0, E1, X0, S0, D0, S0, (f_exp_overflow 10000 exp_10000_overflows).
  cbn [f_add f_div]. now rewrite f_eqb_fin.
Qed.

(** A score of 1e4 in the first row: the assertion sees NaN and fails. *)
Example calculate_weights_overflow_row0 :
  calculate_weights (mk_ndarray 1 1 [[Fin 100]]) (mk_ndarray 1 1 [[Fin 100]])
  = Raise AssertionError.
Proof.
  pose proof DBL_MAX_million as HM.
  cbv [calculate_weights np_dot transpose softmax np_divide np_exp np_sum
       expand_dims bdim bidx item tabulate nrows ncols rows seq map nth
       sum_list fold_left bind index nth_error Nat.eqb length
       s_add s_mul s_div s_exp s_zero s_one s_eqb fval_scalar].
  assert (E1 : f_add (Fin 0) (f_mul (Fin 100) (Fin 100)) = Fin 10000).
  { rewrite f_mul_fin by lra. rewrite f_add_fin by lra. f_equal. lra. }
  rewrite E1, (f_exp_overflow 10000 exp_10000_overflows). reflexivity.
Qed.

(** C4, as stated, fails: finite inputs with a score of 1e4 in the second
    row give a NaN weight. *)
Lemma large_scores_give_nan : ~ weights_never_nan_or_infinite.
Proof.
  intros Hc.
  specialize (Hc (mk_ndarray 2 1 [[Fin 0]; [Fin 100]])
                 (mk_ndarray 1 1 [[Fin 100]])
                 (mk_ndarray 2 1 [[Fin 1]; [NaN]])).
  assert (Hnan : all_finite (mk_ndarray 2 1 [[Fin 1]; [NaN]])).
  { apply Hc; try (cbn; lia); try exact calculate_weights_overflow;
      try (split; [reflexivity | repeat constructor]);
      repeat constructor. }
  unfold all_finite in Hnan. cbn [rows] in Hnan.
  inversion Hnan as [|? ? _ Hrest]. inversion Hrest as [|? ? Hrow _].
  inversion Hrow as [|? ? Hn _]. exact Hn.
Qed.

End RangeWeights.

(** * Further properties of the lab's code *)

(** ** Splitting a sentence *)

Lemma split_not_nil (sep : ascii) (s : string) : split sep s <> [].
Proof.
  destruct s as [|c s]; cbn [split]; [discriminate|].
  destruct (Ascii.eqb c sep); [discriminate|].
  destruct (split sep s); discriminate.
Qed.

Lemma split_pieces_aux (sep : ascii) (s : string) :
  length (split sep s) = S (count_char sep s) /\
  Forall (fun w => count_char sep w = 0%nat) (split sep s).
Proof.
  induction s as [|c s [IHl IHf]]; cbn [split count_char].
  - split; [reflexivity | repeat constructor].
  - destruct (Ascii.eqb c sep) eqn:E.
    + split; [cbn [length]; lia | constructor; [reflexivity | assumption]].
    + destruct (split sep s) as [|w ws] eqn:Es.
      * cbn [length] in IHl. discriminate.
      * inversion IHf as [|? ? Hw Hws]; subst. split.
        -- cbn [length] in *. lia.
        -- constructor; [|assumption]. cbn [count_char]. now rewrite E.
Qed.

(** [split] returns one piece more than there are separators, and no piece
    holds a separator. *)
Theorem split_pieces (sep : ascii) (s : string) :
  length (split sep s) = S (count_char sep s) /\
  Forall (fun w => count_char sep w = 0%nat) (split sep s).
Proof. apply split_pieces_aux. Qed.

(** Joining the pieces with the separator gives the string back. *)
Theorem concat_split (sep : ascii) (s : string) :
  String.concat (String sep EmptyString) (split sep s) = s.
Proof.
  induction s as [|c s IH]; cbn [split]; [reflexivity|].
  destruct (Ascii.eqb_spec c sep) as [->|Hne].
  - pose proof (split_not_nil sep s) as Hn.
    cbn [String.concat]. destruct (split sep s) as [|w ws]; [congruence|].
    cbn [String.append]. now rewrite IH.
  - pose proof (split_not_nil sep s) as Hn.
    destruct (split sep s) as [|w ws]; [congruence|].
    cbn [String.concat] in *. destruct ws as [|w' ws'].
    + now rewrite IH.
    + rewrite <- IH. reflexivity.
Qed.

(** ** Tokens *)

Section TokenFacts.
Variable lower : string -> string.

Lemma tokenize_tokens_aux (sentence : string) (token_mapping : gmap string Z) :
  length (tokenize lower sentence token_mapping)
    = S (count_char " " (lower sentence)) /\
  Forall (fun t => t = (-1)%Z \/ exists word, token_mapping !! word = Some t)
         (tokenize lower sentence token_mapping).
Proof.
  split.
  - rewrite tokenize_length. apply split_pieces_aux.
  - rewrite tokenize_map. apply List.Forall_forall. intros t Ht.
    apply in_map_iff in Ht. destruct Ht as [word [<- _]].
    destruct (token_mapping !! word) as [t|] eqn:E; cbn [default];
      [right; eauto | now left].
Qed.

(** [tokenize] returns one token per word of the lowercased sentence, at
    least one; the token of a word of the mapping is its index, and every
    token is an index of the mapping or -1. *)
Theorem tokenize_tokens (sentence : string) (token_mapping : gmap string Z) :
  length (tokenize lower sentence token_mapping)
    = S (count_char " " (lower sentence)) /\
  (forall (i : nat) word t,
     split " "%char (lower sentence) !! i = Some word ->
     token_mapping !! word = Some t ->
     tokenize lower sentence token_mapping !! i = Some t) /\
  Forall (fun t => t = (-1)%Z \/ exists word, token_mapping !! word = Some t)
         (tokenize lower sentence token_mapping).
Proof.
  split; [|split].
  - apply tokenize_tokens_aux.
  - intros i word t Hw Hm.
    rewrite tokenize_map, lookup_map, Hw. cbn. now rewrite Hm.
  - apply tokenize_tokens_aux.
Qed.

End TokenFacts.

Lemma tokenize_tokens_witness :
  tokenize ascii_lower "The cat" {["the" := 4%Z]} !! 0%nat = Some 4%Z.
Proof.
  apply (proj1 (proj2 (tokenize_tokens ascii_lower "The cat" {["the" := 4%Z]}))
           0%nat "the" 4%Z).
  - reflexivity.
  - vm_compute. reflexivity.
Defined.

(** ** Embedding lookup *)

Section EmbedProperties.
Context {A : Type} `{Scalar A}.
Implicit Types (E output : ndarray A) (tokens : list Z).

Lemma embed_token_length E (t : Z) (r : list A) :
  embed_token E t = Ok r -> length r = ncols E.
Proof.
  unfold embed_token, getitem. intros Hr.
  destruct (Z.eqb t (-1)).
  - injection Hr as <-. now rewrite zero_row, repeat_length.
  - destruct (_ && _); [injection Hr as <-; unfold row;
                        now rewrite length_map, length_seq|].
    destruct (_ && _); [injection Hr as <-; unfold row;
                        now rewrite length_map, length_seq|discriminate].
Qed.

Lemma embed_token_raise_inv E (t : Z) (e : exn) :
  embed_token E t = Raise e ->
  e = IndexError /\ t <> (-1)%Z /\
  (t < - Z.of_nat (nrows E) \/ Z.of_nat (nrows E) <= t)%Z.
Proof.
  intros Hr.
  destruct (Z.eq_dec t (-1)%Z) as [->|Hs];
    [rewrite embed_token_sentinel in Hr; discriminate|].
  destruct (Z_lt_le_dec t (- Z.of_nat (nrows E))) as [Hlo|Hlo];
    [|destruct (Z_lt_le_dec t (Z.of_nat (nrows E))) as [Hhi|Hhi]].
  - rewrite embed_token_out_of_bounds in Hr by (auto; lia).
    injection Hr as <-. repeat split; auto.
  - destruct (embed_token_ok E t) as [r [Hok _]]; [right; lia|]. congruence.
  - rewrite embed_token_out_of_bounds in Hr by (auto; lia).
    injection Hr as <-. repeat split; auto.
Qed.

Lemma embed_shape_wf E tokens output :
  embed tokens E = Ok output ->
  shape output = (length tokens, ncols E) /\ wf output.
Proof.
  intros Ho. destruct (tokens_rows_or_raise E tokens) as [[rs Hrs]|Hex].
  - rewrite (embed_ok E tokens rs Hrs) in Ho. injection Ho as <-.
    split; [reflexivity|]. split; cbn [rows nrows ncols].
    + symmetry. eapply Forall2_length; eassumption.
    + apply List.Forall_forall. intros r Hr.
      apply list_elem_of_In, list_elem_of_lookup in Hr. destruct Hr as [i Hi].
      destruct (Forall2_lookup_r _ _ _ _ _ Hrs Hi) as [t [_ Ht]].
      now apply embed_token_length in Ht.
  - rewrite (embed_raises E tokens Hex) in Ho. discriminate.
Qed.

(** Whenever [embed] returns, its result has one row per token and the
    columns of the embedding matrix, and the rows agree with that shape. *)
Theorem embed_shape E tokens output :
  embed tokens E = Ok output ->
  shape output = (length tokens, ncols E) /\ wf output.
Proof. apply embed_shape_wf. Qed.

(** A token within [0, vocabulary_size) is replaced by the row of the
    embedding matrix at that index. *)
Theorem embed_lookup E tokens output (i : nat) (t : Z) :
  wf E -> embed tokens E = Ok output ->
  tokens !! i = Some t -> (0 <= t < Z.of_nat (nrows E))%Z ->
  rows output !! i = rows E !! Z.to_nat t.
Proof.
  intros HE Ho Hi Ht. destruct (tokens_rows_or_raise E tokens) as [[rs Hrs]|Hex].
  - rewrite (embed_ok E tokens rs Hrs) in Ho. injection Ho as <-. cbn [rows].
    destruct (Forall2_lookup_l _ _ _ _ _ Hrs Hi) as [r [Hr Hz]].
    rewrite embed_token_nonneg in Hz by assumption. injection Hz as <-.
    rewrite Hr, row_wf by (assumption || lia).
    destruct HE as [Hlen _].
    destruct (lookup_lt_is_Some_2 (rows E) (Z.to_nat t)) as [r' Hr']; [lia|].
    rewrite Hr'. f_equal. now apply nth_lookup_Some.
  - rewrite (embed_raises E tokens Hex) in Ho. discriminate.
Qed.

(** ** Tokenizing, then embedding *)

Section EmbeddedSentence.
Variable lower : string -> string.

Lemma embedded_returns (sentence : string) (words : gmap string Z) E :
  (forall word t, words !! word = Some t -> (0 <= t < Z.of_nat (nrows E))%Z) ->
  exists output,
    embedded lower sentence words E = Ok output /\
    shape output = (S (count_char " " (lower sentence)), ncols E) /\
    wf output.
Proof.
  intros Hw. unfold embedded.
  destruct (tokenize_tokens_aux lower sentence words) as [Hlen Hall].
  destruct (embed_rows_exist E (tokenize lower sentence words)) as [rs [Hrs _]].
  { intros t Ht. rewrite List.Forall_forall in Hall.
    destruct (Hall t Ht) as [->|[word Hword]]; [now left|].
    right. specialize (Hw word t Hword). lia. }
  pose proof (embed_ok E _ rs Hrs) as Ho.
  eexists. split; [exact Ho|].
  destruct (embed_shape_wf E _ _ Ho) as [Hs Hwf].
  split; [now rewrite Hs, Hlen | exact Hwf].
Qed.

(** When every index of the dictionary is within [0, vocabulary_size), the
    embedding of a tokenized sentence never raises: it has one row per word,
    at least one, and the columns of the embedding matrix. *)
Theorem embedded_ok (sentence : string) (words : gmap string Z) E :
  (forall word t, words !! word = Some t -> (0 <= t < Z.of_nat (nrows E))%Z) ->
  exists output,
    embedded lower sentence words E = Ok output /\
    shape output = (S (count_char " " (lower sentence)), ncols E) /\
    wf output.
Proof. apply embedded_returns. Qed.

End EmbeddedSentence.

End EmbedProperties.

Section ConvexCombination.
Local Open Scope R_scope.
Implicit Types x Q K V W : ndarray R.

Lemma sum_list_const (a : R) (l : list nat) :
  sum_list (map (fun _ => a) l) = INR (length l) * a.
Proof.
  induction l as [|k l IH]; cbn [map length].
  - rewrite sum_list_nil. cbn. lra.
  - rewrite sum_list_cons, IH, S_INR. lra.
Qed.

Lemma zero_row_weights Q K (i j : nat) :
  ncols Q = ncols K -> (i < nrows Q)%nat -> (j < nrows K)%nat ->
  (forall k, (k < ncols Q)%nat -> item Q i k = 0) ->
  exists W, calculate_weights Q K = Ok W /\ item W i j = 1 / INR (nrows K).
Proof.
  intros Hd Hi Hj Hz. eexists.
  split; [apply calculate_weights_eq; lia || assumption|].
  assert (Hscore : forall j', (j' < nrows K)%nat -> item (qk_scores Q K) i j' = 0).
  { intros j' Hj'. unfold qk_scores. rewrite item_tabulate by assumption.
    rewrite (map_ext_in _ (fun _ => 0)).
    - rewrite sum_list_const. lra.
    - intros k Hk. apply in_seq in Hk. rewrite Hz by lia.
      cbn [s_mul R_scalar]. lra. }
  unfold row_softmax. rewrite item_tabulate by (cbn; lia).
  unfold exp_row. change (ncols (qk_scores Q K)) with (nrows K).
  rewrite (map_ext_in _ (fun _ => 1)).
  - rewrite sum_list_const, length_seq, Hscore by assumption.
    cbn [s_div s_exp R_scalar]. now rewrite exp_0, Rmult_1_r.
  - intros k Hk. apply in_seq in Hk. rewrite Hscore by lia.
    cbn [s_exp R_scalar]. apply exp_0.
Qed.

(** With a single feature column the exercise and the solution compute the
    same weights, on every input. *)
Theorem one_feature_hides_scaling Q K :
  ncols K = 1%nat -> calculate_weights_solution Q K = calculate_weights Q K.
Proof.
  intros Hk. unfold calculate_weights_solution, calculate_weights, np_matmul.
  unfold np_dot. destruct (Nat.eqb _ _); [|reflexivity]. cbn [bind].
  rewrite softmax_solution_axis1, Hk. cbn [s_of_nat s_sqrt R_scalar INR].
  rewrite sqrt_1. set (f := fun i j : nat => sum_list _).
  replace (np_divide_scalar (tabulate (nrows Q) (ncols (transpose K)) f) 1)
    with (tabulate (nrows Q) (ncols (transpose K)) f); [reflexivity|].
  unfold np_divide_scalar. cbn [nrows ncols tabulate].
  apply tabulate_ext. intros i j Hi Hj. fold (tabulate (nrows Q) (nrows K) f).
  rewrite item_tabulate by assumption. cbn [s_div R_scalar]. lra.
Qed.

End ConvexCombination.

(** ** Transposition and the softmax along the other axis *)

Section AxisProperties.
Context {A : Type} `{Scalar A}.

Lemma map_nth_seq (l : list (list A)) :
  map (fun i => nth i l []) (seq 0 (length l)) = l.
Proof.
  apply nth_ext with (d := []) (d' := []).
  - now rewrite length_map, length_seq.
  - intros i Hi. rewrite length_map, length_seq in Hi.
    rewrite (nth_indep _ [] (nth 0 l []))
      by (rewrite length_map, length_seq; exact Hi).
    rewrite (map_nth (fun i => nth i l []) (seq 0 (length l)) 0%nat i).
    now rewrite seq_nth.
Qed.

Lemma tabulate_item (X : ndarray A) :
  wf X -> tabulate (nrows X) (ncols X) (fun i j => item X i j) = X.
Proof.
  intros HX. pose proof HX as [Hlen Hall]. destruct X as [r c l].
  cbn [nrows ncols rows] in *. unfold tabulate. f_equal.
  transitivity (map (fun i => nth i l []) (seq 0 (length l)));
    [|apply map_nth_seq].
  rewrite Hlen. apply map_ext_in. intros i Hi. apply in_seq in Hi.
  apply (row_wf (mk_ndarray r c l) i HX). cbn. lia.
Qed.

(** [X.T] swaps the two indices and the two dimensions, and transposing
    twice gives a well-formed array back. *)
Theorem transpose_involutive (X : ndarray A) :
  shape (transpose X) = (ncols X, nrows X) /\
  (forall i j, (i < nrows X)%nat -> (j < ncols X)%nat ->
     item (transpose X) j i = item X i j) /\
  (wf X -> transpose (transpose X) = X).
Proof.
  split; [reflexivity|]. split.
  - intros i j Hi Hj. unfold transpose. now rewrite item_tabulate.
  - intros HX. rewrite <- (tabulate_item X HX) at 2.
    unfold transpose at 1. cbn [nrows ncols transpose tabulate].
    apply tabulate_ext. intros i j Hi Hj.
    unfold transpose. now rewrite item_tabulate.
Qed.

(** With [axis=0] the exercise's [softmax] still expands the column sums
    along axis 1.  It raises [ValueError] exactly when the array is not
    square and has neither a single row nor a single column; on a square
    array it divides row [i] by the sum of column [i]; and a single row of
    n scores gives an n x n array. *)
Theorem softmax_axis0_exercise (x : ndarray A) :
  (softmax x Axis0 = Raise ValueError <->
   nrows x <> ncols x /\ nrows x <> 1%nat /\ ncols x <> 1%nat) /\
  (nrows x = ncols x ->
   softmax x Axis0 =
   Ok (tabulate (nrows x) (ncols x) (fun i j =>
         s_div (s_exp (item x i j))
               (sum_list (map (fun k => s_exp (item x k i))
                              (seq 0 (nrows x))))))) /\
  (forall W, softmax x Axis0 = Ok W ->
   shape W = (if Nat.eqb (nrows x) 1 then ncols x else nrows x, ncols x)).
Proof.
  unfold softmax, np_divide.
  cbn [np_sum expand_dims nrows ncols np_exp tabulate].
  rewrite length_map, length_seq, bdim_one. split; [|split].
  - unfold bdim.
    destruct (Nat.eqb_spec (nrows x) (ncols x));
      [split; [discriminate | intros [? _]; contradiction]|].
    destruct (Nat.eqb_spec (nrows x) 1);
      [split; [discriminate | intros [_ [? _]]; contradiction]|].
    destruct (Nat.eqb_spec (ncols x) 1);
      [split; [discriminate | intros [_ [_ ?]]; contradiction]|].
    split; [now intros _ | reflexivity].
  - intros Hsq. rewrite <- Hsq, bdim_same. f_equal.
    apply tabulate_ext. intros i j Hi Hj. fold (np_exp x).
    rewrite !bidx_lt by assumption.
    change (bidx 1 j) with (if Nat.eqb 1 1 then 0%nat else j). cbn [Nat.eqb].
    f_equal.
    + unfold np_exp. now rewrite item_tabulate by lia.
    + rewrite item_tabulate by (rewrite ?length_map, ?length_seq; lia).
      rewrite nth_map_seq by lia.
      f_equal. apply map_ext_in. intros k Hk. apply in_seq in Hk.
      unfold np_exp. now rewrite item_tabulate by lia.
  - intros W. unfold bdim.
    destruct (Nat.eqb_spec (nrows x) (ncols x)) as [E|_].
    + intros HW. injection HW as <-. unfold shape. cbn [nrows ncols tabulate].
      destruct (Nat.eqb_spec (nrows x) 1); congruence.
    + destruct (Nat.eqb (nrows x) 1); [intros HW; now injection HW as <-|].
      destruct (Nat.eqb (ncols x) 1); [intros HW; now injection HW as <-|].
      discriminate.
Qed.

(** With [axis=0] the solution's [softmax] never raises: it divides every
    entry by the sum of the exponentials of its column. *)
Lemma softmax_solution_axis0 (x : ndarray A) :
  softmax_solution x Axis0 =
  Ok (tabulate (nrows x) (ncols x) (fun i j =>
        s_div (s_exp (item x i j))
              (sum_list (map (fun k => s_exp (item x k j)) (seq 0 (nrows x)))))).
Proof.
  unfold softmax_solution, np_divide.
  cbn [np_sum expand_dims nrows ncols np_exp tabulate].
  rewrite length_map, length_seq, bdim_one, bdim_same. f_equal.
  apply tabulate_ext. intros i j Hi Hj. fold (np_exp x).
  rewrite !bidx_lt by assumption.
  change (bidx 1 i) with (if Nat.eqb 1 1 then 0%nat else i). cbn [Nat.eqb].
  f_equal.
  - unfold np_exp. now rewrite item_tabulate by lia.
  - rewrite item_tabulate by (rewrite ?length_map, ?length_seq; lia).
    rewrite nth_map_seq by lia.
    f_equal. apply map_ext_in. intros k Hk. apply in_seq in Hk.
    unfold np_exp. now rewrite item_tabulate by lia.
Qed.

End AxisProperties.

(** ** The cells that run the lab *)

Section LabProperties.
Local Open Scope R_scope.
Variable lower : string -> string.

Lemma shape_inv {A : Type} (X : ndarray A) (r c : nat) :
  shape X = (r, c) -> nrows X = r /\ ncols X = c.
Proof. unfold shape. intros E. now injection E. Qed.

Lemma embed_sentinel_row {A : Type} `{Scalar A} (E output : ndarray A)
    (tokens : list Z) (i : nat) :
  embed tokens E = Ok output -> tokens !! i = Some (-1)%Z ->
  rows output !! i = Some (repeat s_zero (ncols E)).
Proof.
  intros Ho Hi. destruct (tokens_rows_or_raise E tokens) as [[rs Hrs]|Hex].
  - rewrite (embed_ok E tokens rs Hrs) in Ho. injection Ho as <-. cbn [rows].
    destruct (Forall2_lookup_l _ _ _ _ _ Hrs Hi) as [r [Hr Hz]].
    rewrite embed_token_sentinel in Hz. congruence.
  - rewrite (embed_raises E tokens Hex) in Ho. discriminate.
Qed.

(** A French word that is not in the dictionary is aligned with every
    English word alike: its row of the alignment holds 1 / n throughout,
    n the number of English words. *)
Theorem unknown_word_uniform_alignment
    (sentence_en : string) (en_words : gmap string Z) (en_embeddings : ndarray R)
    (sentence_fr : string) (fr_words : gmap string Z) (fr_embeddings : ndarray R)
    (W : ndarray R) (i j : nat) (word : string) :
  alignment lower sentence_en en_words en_embeddings
            sentence_fr fr_words fr_embeddings = Ok W ->
  split " "%char (lower sentence_fr) !! i = Some word ->
  fr_words !! word = None ->
  (j < ncols W)%nat ->
  item W i j = 1 / INR (ncols W).
Proof.
  intros HW Hword Hnone Hj. unfold alignment, embedded in HW.
  destruct (embed (tokenize lower sentence_en en_words) en_embeddings)
    as [K|] eqn:HK; [|discriminate].
  destruct (embed (tokenize lower sentence_fr fr_words) fr_embeddings)
    as [Q|] eqn:HQ; [|discriminate].
  cbn [bind] in HW.
  assert (Htok : tokenize lower sentence_fr fr_words !! i = Some (-1)%Z).
  { rewrite tokenize_map, lookup_map, Hword. cbn. now rewrite Hnone. }
  pose proof (embed_sentinel_row _ _ _ i HQ Htok) as Hrow.
  destruct (embed_shape_wf _ _ _ HQ) as [HQs _]. apply shape_inv in HQs.
  destruct HQs as [HQr HQc].
  assert (Hi : (i < nrows Q)%nat).
  { rewrite HQr. apply lookup_lt_is_Some_1. eauto. }
  assert (Hshapes : ncols Q = ncols K /\ (1 <= nrows Q)%nat /\ (1 <= nrows K)%nat).
  { destruct (Nat.eq_dec (ncols Q) (ncols K)) as [Hd|Hd].
    - split; [assumption|]. split; [lia|].
      destruct (nrows K) as [|n] eqn:En; [|lia]. exfalso.
      unfold calculate_weights in HW.
      rewrite np_dot_transpose in HW by assumption. cbn [bind] in HW.
      rewrite softmax_axis1 in HW. cbn [bind np_sum] in HW.
      change (nrows (row_softmax (qk_scores Q K))) with (nrows Q) in HW.
      change (ncols (row_softmax (qk_scores Q K))) with (nrows K) in HW.
      rewrite En in HW. destruct (nrows Q) as [|m]; [lia|].
      cbn [seq map index nth_error bind] in HW. rewrite sum_list_nil in HW.
      cbn [s_eqb s_one R_scalar] in HW.
      destruct (Req_dec_T 0 1) as [E|_]; [lra|discriminate].
    - unfold calculate_weights in HW.
      rewrite np_dot_transpose_mismatch in HW by assumption. discriminate. }
  destruct Hshapes as [Hd [Hm Hn]].
  assert (HWs : ncols W = nrows K).
  { rewrite calculate_weights_eq in HW by assumption. now injection HW as <-. }
  rewrite HWs in *.
  destruct (zero_row_weights Q K i j Hd Hi Hj) as [W' [HW' Hitem]].
  - intros k Hk. unfold item. cbn [s_zero R_scalar].
    rewrite (nth_lookup_Some _ _ [] _ Hrow). apply nth_repeat.
  - rewrite HW in HW'. injection HW' as <-. exact Hitem.
Qed.

End LabProperties.

(** ** Overflow and NaN in the binary64 range model *)

Section RangeProperties.
Local Open Scope R_scope.

Lemma f_add_nan_r (a : fval) : f_add a NaN = NaN.
Proof. now destruct a. Qed.

(** A NaN among the terms makes the sum NaN. *)
Lemma fold_f_add_nan (l : list fval) : forall acc : fval,
  acc = NaN \/ In NaN l -> fold_left f_add l acc = NaN.
Proof.
  induction l as [|a l IH]; intros acc [Hacc|Hin]; cbn [fold_left].
  - assumption.
  - destruct Hin.
  - subst acc. apply IH. now left.
  - destruct Hin as [->|Hin]; apply IH; [left; apply f_add_nan_r | now right].
Qed.

Lemma f_add_nonneg (a b : fval) :
  (a = PInf \/ exists r, a = Fin r /\ 0 <= r) ->
  (b = PInf \/ exists r, b = Fin r /\ 0 <= r) ->
  (f_add a b = PInf \/ exists r, f_add a b = Fin r /\ 0 <= r) /\
  (a = PInf \/ b = PInf -> f_add a b = PInf).
Proof.
  pose proof DBL_MAX_million as HM.
  intros [->|[ra [-> Ha]]] [->|[rb [-> Hb]]]; cbn [f_add];
    try (split; [now left | reflexivity]).
  split.
  - unfold overflow. destruct (Rlt_dec DBL_MAX (ra + rb)); [now left|].
    destruct (Rlt_dec (ra + rb) (- DBL_MAX)); [lra|].
    right. exists (ra + rb). split; [reflexivity|lra].
  - intros [E|E]; discriminate.
Qed.

(** An infinity among non-negative terms makes the sum infinite. *)
Lemma fold_f_add_pinf (l : list fval) : forall acc : fval,
  (acc = PInf \/ exists r, acc = Fin r /\ 0 <= r) ->
  Forall (fun a => a = PInf \/ exists r, a = Fin r /\ 0 <= r) l ->
  acc = PInf \/ In PInf l ->
  fold_left f_add l acc = PInf.
Proof.
  induction l as [|a l IH]; intros acc Hacc Hl Hinf; cbn [fold_left].
  - destruct Hinf as [?|[]]. assumption.
  - inversion Hl as [|? ? Ha Hl']; subst.
    destruct (f_add_nonneg acc a Hacc Ha) as [Hsum Hprop].
    apply IH; [assumption | assumption |].
    destruct Hinf as [->|[->|Hin]]; [left|left|now right]; apply Hprop; auto.
Qed.

Lemma f_exp_nonneg (s : R) :
  f_exp (Fin s) = PInf \/ exists r, f_exp (Fin s) = Fin r /\ 0 <= r.
Proof.
  unfold f_exp. destruct (Rlt_dec DBL_MAX (exp s)); [now left|].
  destruct (Rlt_dec (exp s) EXP_UNDERFLOW); right; eexists;
    (split; [reflexivity|]); [lra | left; apply exp_pos].
Qed.

(** When a score of the first row is so large that its exponential
    overflows, the weight at that place is NaN and [calculate_weights]
    fails its assertion. *)
Theorem overflow_in_first_row_fails_assertion
    (Q K : ndarray fval) (x : ndarray R) (j0 : nat) :
  np_dot Q (transpose K) = Ok (to_fval x) ->
  (1 <= nrows x)%nat -> (j0 < ncols x)%nat ->
  DBL_MAX < exp (item x 0 j0) ->
  calculate_weights Q K = Raise AssertionError.
Proof.
  intros Hdot Hr Hj Hov. unfold calculate_weights. rewrite Hdot. cbn [bind].
  rewrite softmax_axis1. cbn [bind np_sum].
  change (nrows (row_softmax (to_fval x))) with (nrows x).
  change (ncols (row_softmax (to_fval x))) with (ncols x).
  destruct (nrows x) as [|m] eqn:Em; [lia|].
  cbn [seq map index nth_error bind].
  assert (Hsum : sum_list (exp_row (to_fval x) 0) = PInf).
  { unfold sum_list. cbn [s_add s_zero fval_scalar].
    apply fold_f_add_pinf.
    - right. exists 0. split; [reflexivity|lra].
    - apply List.Forall_forall. intros a Ha. unfold exp_row in Ha.
      apply in_map_iff in Ha. destruct Ha as [j [<- _]].
      rewrite item_to_fval. apply f_exp_nonneg.
    - right. unfold exp_row. apply in_map_iff. exists j0.
      split; [|apply in_seq; cbn; lia].
      rewrite item_to_fval. now apply f_exp_overflow. }
  assert (Hnan : sum_list (map (fun j => item (row_softmax (to_fval x)) 0 j)
                               (seq 0 (ncols x))) = NaN).
  { unfold sum_list. cbn [s_add s_zero fval_scalar].
    apply fold_f_add_nan. right. apply in_map_iff. exists j0.
    split; [|apply in_seq; lia].
    unfold row_softmax. rewrite item_tabulate by (cbn; lia).
    rewrite Hsum, item_to_fval. cbn [s_div s_exp fval_scalar].
    now rewrite f_exp_overflow. }
  rewrite Hnan. reflexivity.
Qed.

(** With no feature column the solution divides 0 by 0: every score is NaN
    and the assertion fails, whatever the numbers of rows. *)
Theorem solution_without_features_fails_assertion (Q K : ndarray fval) :
  ncols Q = 0%nat -> ncols K = 0%nat ->
  (1 <= nrows Q)%nat -> (1 <= nrows K)%nat ->
  calculate_weights_solution Q K = Raise AssertionError.
Proof.
  intros HQ HK Hm Hn. pose proof DBL_MAX_million as HM.
  unfold calculate_weights_solution, np_matmul.
  rewrite np_dot_transpose by congruence. cbn [bind].
  rewrite softmax_solution_axis1, softmax_axis1. cbn [bind np_sum].
  set (x := np_divide_scalar _ _).
  change (nrows (row_softmax x)) with (nrows Q).
  change (ncols (row_softmax x)) with (nrows K).
  assert (Hx : forall i j, (i < nrows Q)%nat -> (j < nrows K)%nat ->
                           item x i j = NaN).
  { intros i j Hi Hj. unfold x, np_divide_scalar, qk_scores.
    cbn [nrows ncols tabulate]. rewrite !item_tabulate by assumption.
    rewrite HQ, HK. cbn [seq map sum_list fold_left].
    cbn [s_div s_sqrt s_of_nat s_zero fval_scalar INR].
    rewrite overflow_fin by lra. cbn [f_sqrt].
    destruct (Rlt_dec 0 0) as [?|_]; [lra|]. cbn [f_div].
    destruct (Req_dec_T (sqrt 0) 0) as [_|Hne]; [|now rewrite sqrt_0 in Hne].
    unfold inf_times. destruct (Rlt_dec 0 0); [lra|reflexivity]. }
  destruct (nrows Q) as [|m] eqn:Em; [lia|].
  cbn [seq map index nth_error bind].
  assert (Hnan : sum_list (map (fun j => item (row_softmax x) 0 j)
                               (seq 0 (nrows K))) = NaN).
  { unfold sum_list. cbn [s_add s_zero fval_scalar].
    apply fold_f_add_nan. right. apply in_map_iff. exists 0%nat.
    split; [|apply in_seq; lia].
    unfold row_softmax. rewrite item_tabulate by (cbn; lia).
    rewrite Hx by lia. reflexivity. }
  rewrite Hnan. reflexivity.
Qed.

End RangeProperties.

(** ** Instances of the further properties *)

Section MoreInstances.
Local Open Scope R_scope.

Lemma embed_shape_witness :
  shape (mk_ndarray 2 2 [[0; 0]; [5; 6]]) = (2%nat, 2%nat) /\
  wf (mk_ndarray 2 2 [[0; 0]; [5; 6]]).
Proof.
  apply (@embed_shape R R_scalar (mk_ndarray 1 2 [[5; 6]]) [(-1)%Z; 0%Z]
           (mk_ndarray 2 2 [[0; 0]; [5; 6]])).
  reflexivity.
Defined.

Lemma embed_lookup_witness :
  rows (mk_ndarray 2 1 [[6]; [5]]) !! 0%nat
  = rows (mk_ndarray 2 1 [[5]; [6]]) !! Z.to_nat 1.
Proof.
  apply (@embed_lookup R R_scalar (mk_ndarray 2 1 [[5]; [6]]) [1%Z; 0%Z]
           (mk_ndarray 2 1 [[6]; [5]]) 0%nat 1%Z).
  - split; [reflexivity | repeat constructor].
  - reflexivity.
  - reflexivity.
  - cbn. lia.
Defined.

Lemma embedded_ok_witness :
  exists output,
    embedded ascii_lower "The cat" {["the" := 1%Z]} (mk_ndarray 2 1 [[5]; [6]])
      = Ok output /\
    shape output = (S (count_char " " (ascii_lower "The cat")), 1%nat) /\
    wf output.
Proof.
  apply (@embedded_ok R R_scalar ascii_lower "The cat" {["the" := 1%Z]}
           (mk_ndarray 2 1 [[5]; [6]])).
  intros word t Hw. apply lookup_singleton_Some in Hw. destruct Hw as [_ <-].
  cbn. lia.
Defined.

Lemma one_feature_hides_scaling_witness :
  calculate_weights_solution (mk_ndarray 1 1 [[3]]) (mk_ndarray 2 1 [[1]; [2]])
  = calculate_weights (mk_ndarray 1 1 [[3]]) (mk_ndarray 2 1 [[1]; [2]]).
Proof.
  apply (one_feature_hides_scaling
           (mk_ndarray 1 1 [[3]]) (mk_ndarray 2 1 [[1]; [2]])).
  reflexivity.
Defined.

Lemma transpose_involutive_witness :
  item (transpose (mk_ndarray 1 2 [[3; 4]])) 1 0 = item (mk_ndarray 1 2 [[3; 4]]) 0 1 /\
  transpose (transpose (mk_ndarray 1 2 [[3; 4]])) = mk_ndarray 1 2 [[3; 4]].
Proof.
  split.
  - apply (proj1 (proj2 (@transpose_involutive R R_scalar
                           (mk_ndarray 1 2 [[3; 4]])))); cbn; lia.
  - apply (proj2 (proj2 (@transpose_involutive R R_scalar
                           (mk_ndarray 1 2 [[3; 4]])))).
    split; [reflexivity | repeat constructor].
Defined.

Lemma softmax_axis0_exercise_witness :
  softmax (mk_ndarray 2 3 [[1; 2; 3]; [4; 5; 6]]) Axis0 = Raise ValueError /\
  softmax (mk_ndarray 1 1 [[1]]) Axis0 =
  Ok (tabulate 1 1 (fun i j =>
        s_div (s_exp (item (mk_ndarray 1 1 [[1]]) i j))
              (sum_list (map (fun k => s_exp (item (mk_ndarray 1 1 [[1]]) k i))
                             (seq 0 1))))).
Proof.
  split.
  - apply (proj1 (@softmax_axis0_exercise R R_scalar
                    (mk_ndarray 2 3 [[1; 2; 3]; [4; 5; 6]]))).
    cbn. repeat split; lia.
  - apply (proj1 (proj2 (@softmax_axis0_exercise R R_scalar
                           (mk_ndarray 1 1 [[1]])))).
    reflexivity.
Defined.

Lemma overflow_in_first_row_fails_assertion_witness :
  calculate_weights (mk_ndarray 1 1 [[Fin 100]]) (mk_ndarray 1 1 [[Fin 100]])
  = Raise AssertionError.
Proof.
  apply (overflow_in_first_row_fails_assertion
           (mk_ndarray 1 1 [[Fin 100]]) (mk_ndarray 1 1 [[Fin 100]])
           (mk_ndarray 1 1 [[0 + 100 * 100]]) 0%nat).
  - pose proof DBL_MAX_million.
    cbv [np_dot transpose item tabulate nrows ncols rows seq map nth
         sum_list fold_left Nat.eqb to_fval
         s_add s_mul s_zero fval_scalar].
    rewrite !f_mul_fin by lra. rewrite !f_add_fin by lra. reflexivity.
  - cbn. lia.
  - cbn. lia.
  - unfold item. cbn [rows nth].
    replace (0 + 100 * 100) with 10000 by lra. apply exp_10000_overflows.
Defined.

Lemma solution_without_features_fails_assertion_witness :
  calculate_weights_solution (mk_ndarray 1 0 [[]]) (mk_ndarray 2 0 [[]; []])
  = Raise AssertionError.
Proof.
  apply (solution_without_features_fails_assertion
           (mk_ndarray 1 0 [[]]) (mk_ndarray 2 0 [[]; []])).
  - reflexivity.
  - reflexivity.
  - cbn. lia.
  - cbn. lia.
Defined.

End MoreInstances.


(** * The code in any arithmetic *)

(** ** What [calculate_weights] does, case by case *)

Section AnyArithmetic.
Context {A : Type} `{Scalar A}.
Implicit Types Q K V W : ndarray A.

(** The column counts are compared first, by the product; then the first row
    sum is indexed; then the assertion compares it with 1. *)
Lemma calculate_weights_cases Q K :
  calculate_weights Q K =
  if Nat.eqb (ncols Q) (ncols K) then
    match nrows Q with
    | O => Raise IndexError
    | S _ =>
        if s_eqb (sum_list (row (row_softmax (qk_scores Q K)) 0)) s_one
        then Ok (row_softmax (qk_scores Q K))
        else Raise AssertionError
    end
  else Raise ValueError.
Proof.
  unfold calculate_weights. destruct (Nat.eqb_spec (ncols Q) (ncols K)) as [Hd|Hd].
  - rewrite np_dot_transpose by assumption. cbn [bind].
    rewrite softmax_axis1. cbn [bind np_sum].
    change (nrows (row_softmax (qk_scores Q K))) with (nrows Q).
    destruct (nrows Q); reflexivity.
  - now rewrite np_dot_transpose_mismatch.
Qed.

Lemma calculate_weights_returns_inv Q K W :
  calculate_weights Q K = Ok W ->
  ncols Q = ncols K /\ (1 <= nrows Q)%nat /\
  W = row_softmax (qk_scores Q K) /\
  s_eqb (sum_list (row W 0)) s_one = true.
Proof.
  rewrite calculate_weights_cases.
  destruct (Nat.eqb_spec (ncols Q) (ncols K)) as [Hd|Hd]; [|discriminate].
  destruct (nrows Q) as [|m]; [discriminate|].
  destruct (s_eqb _ _) eqn:E; [|discriminate].
  intros HW. injection HW as <-. repeat split; [assumption | lia | exact E].
Qed.

(** With matching columns and a query row, the only exception is that of the
    assertion. *)
Lemma calculate_weights_returns_or_asserts Q K :
  ncols Q = ncols K -> (1 <= nrows Q)%nat ->
  calculate_weights Q K = Ok (row_softmax (qk_scores Q K)) \/
  calculate_weights Q K = Raise AssertionError.
Proof.
  intros Hd Hm. rewrite calculate_weights_cases.
  apply Nat.eqb_eq in Hd. rewrite Hd. destruct (nrows Q) as [|m]; [lia|].
  destruct (s_eqb _ _); [now left | now right].
Qed.

Lemma np_dot_weights Q K V :
  nrows V = nrows K ->
  np_dot (row_softmax (qk_scores Q K)) V =
  Ok (tabulate (nrows Q) (ncols V) (fun i j =>
        sum_list (map (fun k => s_mul (item (row_softmax (qk_scores Q K)) i k)
                                      (item V k j))
                      (seq 0 (nrows K))))).
Proof.
  intros Hv. unfold np_dot.
  change (ncols (row_softmax (qk_scores Q K))) with (nrows K).
  change (nrows (row_softmax (qk_scores Q K))) with (nrows Q).
  now rewrite Hv, Nat.eqb_refl.
Qed.

(** C5, as the code has it.  Whenever [calculate_weights] returns weights W
    and the values have as many rows as the keys, [attention_qkv] returns
    the product of W and the values: an array of shape (rows of queries,
    columns of values) whose entry (i, j) is the sum over k of
    W[i,k] * values[k,j], row i being the rows of the values weighted by row i
    of W.  When [calculate_weights] raises, [attention_qkv] raises the
    same. *)
Theorem attention_qkv_is_product_of_returned_weights Q K V :
  (forall W, calculate_weights Q K = Ok W -> nrows V = nrows K ->
     exists out,
       attention_qkv Q K V = Ok out /\
       np_dot W V = Ok out /\
       wf out /\ shape out = (nrows Q, ncols V) /\
       forall i j, (i < nrows Q)%nat -> (j < ncols V)%nat ->
         item out i j =
         sum_list (map (fun k => s_mul (item W i k) (item V k j))
                       (seq 0 (nrows K)))) /\
  (forall e, calculate_weights Q K = Raise e -> attention_qkv Q K V = Raise e).
Proof.
  split.
  - intros W HW Hv. unfold attention_qkv. rewrite HW. cbn [bind].
    apply calculate_weights_returns_inv in HW. destruct HW as [_ [_ [-> _]]].
    rewrite (np_dot_weights Q K V Hv). cbn [bind]. eexists.
    split; [reflexivity|]. split; [reflexivity|].
    split; [apply wf_tabulate|]. split; [reflexivity|].
    intros i j Hi Hj. now rewrite item_tabulate.
  - intros e He. unfold attention_qkv. now rewrite He.
Qed.

(** When the weights are returned and the values have another number of rows
    than the keys, [attention_qkv] raises the [ValueError] of the product. *)
Theorem attention_qkv_errors Q K V W :
  calculate_weights Q K = Ok W -> nrows V <> nrows K ->
  attention_qkv Q K V = Raise ValueError.
Proof.
  intros HW Hv. unfold attention_qkv. rewrite HW. cbn [bind].
  apply calculate_weights_returns_inv in HW. destruct HW as [_ [_ [-> _]]].
  unfold np_dot. change (ncols (row_softmax (qk_scores Q K))) with (nrows K).
  destruct (Nat.eqb_spec (nrows K) (nrows V)); [congruence|reflexivity].
Qed.

Lemma sum_list_singleton (a : A) : sum_list [a] = s_add s_zero a.
Proof. reflexivity. Qed.

(** A single query row and a single key/value row, in any arithmetic: the
    weight is e / (0 + e), e the exponential of the one score, the assertion
    compares 0 + 1 with 1, and every entry v of the value row comes out as
    0 + 1 * v. *)
Lemma single_row_attention_any Q K V :
  nrows Q = 1%nat -> nrows K = 1%nat -> ncols Q = ncols K ->
  wf V -> nrows V = 1%nat ->
  s_div (s_exp (item (qk_scores Q K) 0 0))
        (s_add s_zero (s_exp (item (qk_scores Q K) 0 0))) = s_one ->
  s_eqb (s_add s_zero s_one) s_one = true ->
  Forall (fun v => s_add s_zero (s_mul s_one v) = v) (row V 0) ->
  calculate_weights Q K = Ok (mk_ndarray 1 1 [[s_one]]) /\
  attention_qkv Q K V = Ok V.
Proof.
  intros Hm Hn Hd HV Hv He Hone Hrow.
  assert (Hsoft : row_softmax (qk_scores Q K) = mk_ndarray 1 1 [[s_one]]).
  { unfold row_softmax, exp_row.
    change (nrows (qk_scores Q K)) with (nrows Q).
    change (ncols (qk_scores Q K)) with (nrows K).
    rewrite Hm, Hn. unfold tabulate at 1. cbn [seq map].
    now rewrite sum_list_singleton, He. }
  assert (HW : calculate_weights Q K = Ok (mk_ndarray 1 1 [[s_one]])).
  { rewrite calculate_weights_cases. apply Nat.eqb_eq in Hd. rewrite Hd, Hm.
    rewrite Hsoft. unfold row, item. cbn [ncols rows seq map nth].
    now rewrite sum_list_singleton, Hone. }
  split; [exact HW|].
  unfold attention_qkv. rewrite HW. cbn [bind].
  unfold np_dot. cbn [nrows ncols]. rewrite Hv. cbn [Nat.eqb bind].
  f_equal. destruct V as [n e v]. cbn [nrows ncols rows] in *. subst n.
  unfold tabulate. cbn [seq map]. f_equal.
  pose proof (row_wf (mk_ndarray 1 e v) 0 HV (Nat.lt_0_1)) as Hnth.
  destruct HV as [Hlen _]. cbn [rows nrows] in Hlen, Hnth.
  destruct v as [|v0 [|? ?]]; try discriminate Hlen.
  cbn [nth] in Hnth. f_equal.
  transitivity (row (mk_ndarray 1 e [v0]) 0); [|exact Hnth].
  unfold row at 1. cbn [ncols].
  apply map_ext_in. intros j Hj. rewrite sum_list_singleton.
  change (item (mk_ndarray 1 1 [[s_one]]) 0 0) with (@s_one A _).
  rewrite List.Forall_forall in Hrow. apply Hrow.
  unfold row. cbn [ncols]. apply in_map_iff. now exists j.
Qed.


(** ** Failures by shape *)

Section ZeroIsNotOne.
Hypothesis zero_ne_one : s_eqb s_zero s_one = false.

Lemma calculate_weights_raises Q K :
  (ncols Q <> ncols K -> calculate_weights Q K = Raise ValueError) /\
  (ncols Q = ncols K -> nrows Q = 0%nat ->
   calculate_weights Q K = Raise IndexError) /\
  (ncols Q = ncols K -> (1 <= nrows Q)%nat -> nrows K = 0%nat ->
   calculate_weights Q K = Raise AssertionError).
Proof using zero_ne_one.
  rewrite calculate_weights_cases. split; [|split].
  - intros Hd. apply Nat.eqb_neq in Hd. now rewrite Hd.
  - intros Hd Hm. apply Nat.eqb_eq in Hd. now rewrite Hd, Hm.
  - intros Hd Hm Hn. apply Nat.eqb_eq in Hd. rewrite Hd.
    destruct (nrows Q) as [|m]; [lia|].
    unfold row. change (ncols (row_softmax (qk_scores Q K))) with (nrows K).
    rewrite Hn. cbn [seq map]. unfold sum_list. cbn [fold_left].
    now rewrite zero_ne_one.
Qed.

(** C3.  [calculate_weights] fails with [ShapeMismatch] whenever the feature
    dimensions of queries and keys differ, and, the feature dimensions
    agreeing, with [EmptyInput] whenever either input has zero rows; the
    exception is raised and no result is returned.  The exceptions are read
    by [spec_error_of], and 0 is taken not to equal 1. *)
Theorem calculate_weights_reports_errors Q K :
  (ncols Q <> ncols K ->
   exists e, calculate_weights Q K = Raise e /\
             spec_error_of e = ShapeMismatch) /\
  (ncols Q = ncols K -> nrows Q = 0%nat \/ nrows K = 0%nat ->
   exists e, calculate_weights Q K = Raise e /\
             spec_error_of e = EmptyInput).
Proof using zero_ne_one.
  destruct (calculate_weights_raises Q K) as [Hv [Hi Ha]]. split.
  - intros Hd. exists ValueError. split; [now apply Hv | reflexivity].
  - intros Hd Hz. destruct (Nat.eq_dec (nrows Q) 0) as [Hm|Hm].
    + exists IndexError. split; [now apply Hi | reflexivity].
    + exists AssertionError. split; [|reflexivity].
      apply Ha; [assumption | lia | destruct Hz; [contradiction | assumption]].
Qed.

(** Whenever [calculate_weights] returns, the feature dimensions agree and
    both inputs have a row, and the result has a row per query and a column
    per key; whenever [attention_qkv] returns, the values have, besides, as
    many rows as the keys, and the result has a row per query and the
    columns of the values. *)
Theorem returns_only_if_shapes_agree Q K V :
  (forall W, calculate_weights Q K = Ok W ->
     ncols Q = ncols K /\ (1 <= nrows Q)%nat /\ (1 <= nrows K)%nat /\
     shape W = (nrows Q, nrows K)) /\
  (forall out, attention_qkv Q K V = Ok out ->
     ncols Q = ncols K /\ (1 <= nrows Q)%nat /\ (1 <= nrows K)%nat /\
     nrows V = nrows K /\ shape out = (nrows Q, ncols V)).
Proof using zero_ne_one.
  assert (Hw : forall W, calculate_weights Q K = Ok W ->
     ncols Q = ncols K /\ (1 <= nrows Q)%nat /\ (1 <= nrows K)%nat /\
     shape W = (nrows Q, nrows K)).
  { intros W HW. pose proof HW as Hinv.
    apply calculate_weights_returns_inv in Hinv.
    destruct Hinv as [Hd [Hm [-> _]]]. repeat split; try assumption.
    destruct (nrows K) as [|n] eqn:En; [|lia].
    destruct (calculate_weights_raises Q K) as [_ [_ Ha]].
    rewrite Ha in HW by assumption. discriminate. }
  split; [exact Hw|].
  intros out Ho. unfold attention_qkv in Ho.
  destruct (calculate_weights Q K) as [W|e] eqn:HW; [|discriminate].
  destruct (Hw W eq_refl) as [Hd [Hm [Hn _]]]. cbn [bind] in Ho.
  destruct (Nat.eq_dec (nrows V) (nrows K)) as [Hv|Hv].
  - apply calculate_weights_returns_inv in HW. destruct HW as [_ [_ [-> _]]].
    rewrite (np_dot_weights Q K V Hv) in Ho. cbn [bind] in Ho.
    injection Ho as <-. repeat split; assumption.
  - apply calculate_weights_returns_inv in HW. destruct HW as [_ [_ [-> _]]].
    unfold np_dot in Ho.
    change (ncols (row_softmax (qk_scores Q K))) with (nrows K) in Ho.
    destruct (Nat.eqb_spec (nrows K) (nrows V)); [congruence|discriminate].
Qed.

End ZeroIsNotOne.

End AnyArithmetic.

(** ** The solution's softmax along axis 0, and the lab's cells *)

Section LabAnyArithmetic.
Context {A : Type} `{Scalar A}.
Variable lower : string -> string.

(** With [axis=0] the solution's [softmax] raises on no array: the result
    has the shape of its argument, and entry (i, j) is the exponential of
    the entry over the sum of the exponentials of column j. *)
Theorem softmax_solution_normalises_columns (x : ndarray A) :
  exists W,
    softmax_solution x Axis0 = Ok W /\ shape W = (nrows x, ncols x) /\ wf W /\
    forall i j, (i < nrows x)%nat -> (j < ncols x)%nat ->
      item W i j =
      s_div (s_exp (item x i j))
            (sum_list (map (fun k => s_exp (item x k j)) (seq 0 (nrows x)))).
Proof.
  eexists. split; [apply softmax_solution_axis0|].
  split; [reflexivity|]. split; [apply wf_tabulate|].
  intros i j Hi Hj. now rewrite item_tabulate.
Qed.

(** When the indices of both dictionaries are within the bounds of their
    embedding matrices and the two matrices have as many columns, the
    lab's [alignment] cell either returns an array with one row per French
    word and one column per English word, or stops at the assertion of
    [calculate_weights]; no [ValueError] or [IndexError] can come out of
    it.  The same holds of the [attention_qkv_result] cell, whose array has
    one row per French word and the columns of the English embedding. *)
Theorem alignment_returns_or_asserts
    (sentence_en : string) (en_words : gmap string Z) (en_embeddings : ndarray A)
    (sentence_fr : string) (fr_words : gmap string Z) (fr_embeddings : ndarray A) :
  (forall word t, en_words !! word = Some t ->
     (0 <= t < Z.of_nat (nrows en_embeddings))%Z) ->
  (forall word t, fr_words !! word = Some t ->
     (0 <= t < Z.of_nat (nrows fr_embeddings))%Z) ->
  ncols fr_embeddings = ncols en_embeddings ->
  ((exists W,
      alignment lower sentence_en en_words en_embeddings
                sentence_fr fr_words fr_embeddings = Ok W /\
      shape W = (S (count_char " " (lower sentence_fr)),
                 S (count_char " " (lower sentence_en))) /\
      wf W) \/
   alignment lower sentence_en en_words en_embeddings
             sentence_fr fr_words fr_embeddings = Raise AssertionError) /\
  ((exists out,
      attention_qkv_result lower sentence_en en_words en_embeddings
                           sentence_fr fr_words fr_embeddings = Ok out /\
      shape out = (S (count_char " " (lower sentence_fr)), ncols en_embeddings) /\
      wf out) \/
   attention_qkv_result lower sentence_en en_words en_embeddings
                        sentence_fr fr_words fr_embeddings
     = Raise AssertionError).
Proof.
  intros Hen Hfr Hd.
  destruct (embedded_returns lower sentence_en en_words en_embeddings Hen)
    as [K [HK [HKs _]]].
  destruct (embedded_returns lower sentence_fr fr_words fr_embeddings Hfr)
    as [Q [HQ [HQs _]]].
  apply shape_inv in HKs, HQs. destruct HKs as [HKr HKc], HQs as [HQr HQc].
  unfold alignment, attention_qkv_result, attention_qkv.
  rewrite HK, HQ. cbn [bind].
  assert (HdQK : ncols Q = ncols K) by congruence.
  assert (Hm : (1 <= nrows Q)%nat) by lia.
  destruct (calculate_weights_returns_or_asserts Q K HdQK Hm) as [HW|HW];
    rewrite HW; cbn [bind].
  - split; left; eexists.
    + split; [reflexivity|]. split; [|apply wf_tabulate].
      unfold shape. cbn [nrows ncols row_softmax tabulate qk_scores].
      now rewrite HQr, HKr.
    + rewrite (np_dot_weights Q K K eq_refl). cbn [bind].
      split; [reflexivity|]. split; [|apply wf_tabulate].
      unfold shape. cbn [nrows ncols tabulate]. now rewrite HQr, HKc.
  - split; now right.
Qed.

End LabAnyArithmetic.

(** * The code in binary64 *)

(** ** Signs, infinities and NaN in IEEE arithmetic *)

Lemma binary_round_aux_sign prec emax sx mx ex lx :
  sign_or_nan sx (binary_round_aux prec emax sx mx ex lx).
Proof.
  unfold binary_round_aux.
  destruct (shr_fexp prec emax mx ex lx) as [mrs' e'].
  destruct (shr_fexp prec emax _ e' loc_Exact) as [mrs'' e''].
  destruct (shr_m mrs''); cbn; [reflexivity| |exact I].
  destruct (e'' <=? emax - prec)%Z; reflexivity.
Qed.

Lemma not_negative_sign (a : float) :
  not_negative a <-> sign_or_nan false (Prim2SF a).
Proof. unfold not_negative, sign_or_nan. destruct (Prim2SF a); tauto. Qed.



Lemma not_negative_square (a : float) : not_negative (square a).
Proof.
  rewrite not_negative_sign. unfold square. rewrite mul_spec.
  unfold SF64mul, SFmul.
  destruct (Prim2SF a) as [sa|sa| |sa ma ea]; cbn [sign_or_nan];
    try exact I; try (now destruct sa).
  replace (xorb sa sa) with false by now destruct sa.
  apply binary_round_aux_sign.
Qed.


Lemma not_finite_add_l (a b : float) : not_finite a -> not_finite (a + b)%float.
Proof.
  unfold not_finite. rewrite add_spec. unfold SF64add, SFadd.
  destruct (Prim2SF a) as [sa|sa| |sa ma ea], (Prim2SF b) as [sb|sb| |sb mb eb];
    try tauto; destruct sa, sb; tauto.
Qed.

Lemma not_finite_add_r (a b : float) : not_finite b -> not_finite (a + b)%float.
Proof.
  unfold not_finite. rewrite add_spec. unfold SF64add, SFadd.
  destruct (Prim2SF a) as [sa|sa| |sa ma ea], (Prim2SF b) as [sb|sb| |sb mb eb];
    try tauto; destruct sa, sb; tauto.
Qed.

Lemma is_nan_eq (a : float) : Prim2SF a = S754_nan -> a = nan.
Proof. intros Ha. now apply Prim2SF_inj. Qed.

Lemma infinity_div_not_finite (s : float) :
  not_finite s -> (infinity / s)%float = nan.
Proof.
  intros Hs. apply is_nan_eq. rewrite div_spec.
  change (Prim2SF infinity) with (S754_infinity false).
  unfold not_finite in Hs. destruct (Prim2SF s); tauto || reflexivity.
Qed.

Lemma nan_add_l (b : float) : (nan + b)%float = nan.
Proof. apply is_nan_eq. rewrite add_spec. reflexivity. Qed.

Lemma nan_add_r (a : float) : (a + nan)%float = nan.
Proof.
  apply is_nan_eq. rewrite add_spec. change (Prim2SF nan) with S754_nan.
  now destruct (Prim2SF a).
Qed.

(** ** Sums of a row *)


Lemma fold_add_not_finite_acc (l : list float) (acc : float) :
  not_finite acc -> not_finite (fold_left PrimFloat.add l acc).
Proof.
  revert acc. induction l as [|a l IH]; intros acc Hacc; [exact Hacc|].
  cbn [fold_left]. apply IH. now apply not_finite_add_l.
Qed.

Lemma fold_add_not_finite (l : list float) (acc a : float) :
  In a l -> not_finite a -> not_finite (fold_left PrimFloat.add l acc).
Proof.
  revert acc. induction l as [|b l IH]; intros acc Hin Ha; [contradiction|].
  cbn [fold_left]. destruct Hin as [->|Hin].
  - apply fold_add_not_finite_acc. now apply not_finite_add_r.
  - now apply IH.
Qed.

Lemma fold_add_nan_acc (l : list float) : fold_left PrimFloat.add l nan = nan.
Proof.
  induction l as [|a l IH]; [reflexivity|].
  cbn [fold_left]. now rewrite nan_add_l.
Qed.

Lemma fold_add_nan (l : list float) (acc : float) :
  In nan l -> fold_left PrimFloat.add l acc = nan.
Proof.
  revert acc. induction l as [|b l IH]; intros acc Hin; [contradiction|].
  cbn [fold_left]. destruct Hin as [->|Hin].
  - rewrite nan_add_r. apply fold_add_nan_acc.
  - now apply IH.
Qed.

(** ** Exact operations: 0 + v, e / e, 1 * v and 0 * v *)

Lemma finite_nonzero_intro (a : float) :
  PrimFloat.is_finite a = true -> is_zero a = false -> finite_nonzero a.
Proof.
  unfold PrimFloat.is_finite, is_nan, is_infinity, is_zero, finite_nonzero.
  rewrite !FloatAxioms.eqb_spec, abs_spec.
  change (Prim2SF PrimFloat.zero) with (S754_zero false).
  change (Prim2SF infinity) with (S754_infinity false).
  destruct (Prim2SF a) as [s|s| |s m e]; cbn; try discriminate; try tauto.
  all: destruct s; cbn; discriminate.
Qed.

Lemma finite_cases (a : float) :
  PrimFloat.is_finite a = true -> signed_zero a \/ finite_nonzero a.
Proof.
  unfold PrimFloat.is_finite, is_nan, is_infinity, signed_zero, finite_nonzero.
  rewrite !FloatAxioms.eqb_spec, abs_spec.
  change (Prim2SF infinity) with (S754_infinity false).
  destruct (Prim2SF a) as [s|s| |s m e]; cbn; try discriminate; try tauto.
  destruct s; cbn; discriminate.
Qed.

Lemma zero_add (v : float) : v <> neg_zero -> (0 + v)%float = v.
Proof.
  intros Hv. apply Prim2SF_inj. rewrite add_spec.
  change (Prim2SF 0) with (S754_zero false).
  destruct (Prim2SF v) as [[|]|s| |s m e] eqn:E; try reflexivity.
  exfalso. apply Hv. now apply Prim2SF_inj.
Qed.

Lemma zero_add_signed_zero (v : float) : signed_zero v -> (0 + v)%float = 0%float.
Proof.
  unfold signed_zero. intros Hv. apply Prim2SF_inj. rewrite add_spec.
  change (Prim2SF 0) with (S754_zero false).
  destruct (Prim2SF v) as [[|]|s| |s m e]; try contradiction; reflexivity.
Qed.

Lemma zero_mul_finite (v : float) :
  PrimFloat.is_finite v = true -> signed_zero (0 * v)%float.
Proof.
  intros Hv. apply finite_cases in Hv. revert Hv.
  unfold signed_zero, finite_nonzero. rewrite mul_spec.
  change (Prim2SF 0) with (S754_zero false).
  destruct (Prim2SF v) as [s|s| |s m e]; cbn; tauto.
Qed.

Lemma div_eucl_mul (m : positive) (q : Z) :
  Z.div_eucl (Z.pos m * q) (Z.pos m) = (q, 0%Z).
Proof.
  pose proof (Z_div_mult_full q (Z.pos m) ltac:(discriminate)) as Hq.
  pose proof (Z_mod_mult q (Z.pos m)) as Hr.
  rewrite Z.mul_comm. unfold Z.div, Z.modulo in Hq, Hr.
  destruct (Z.div_eucl (q * Z.pos m) (Z.pos m)) as [q' r']. now subst.
Qed.

Lemma SFdiv_core_binary_self (m : positive) (ex : Z) :
  SFdiv_core_binary prec emax (Z.pos m) ex (Z.pos m) ex =
  (9007199254740992, -53, loc_Exact)%Z.
Proof.
  unfold SFdiv_core_binary.
  replace (Zdigits2 (Z.pos m) + ex - (Zdigits2 (Z.pos m) + ex))%Z with 0%Z by lia.
  replace (ex - ex)%Z with 0%Z by lia.
  change (fexp prec emax 0) with (-53)%Z. cbv zeta.
  change (Z.min (-53) 0) with (-53)%Z. change (0 - -53)%Z with 53%Z.
  cbv iota. rewrite Z.shiftl_mul_pow2 by lia.
  change IntDef.Z.div_eucl with Z.div_eucl.
  rewrite div_eucl_mul. unfold new_location.
  destruct (IntDef.Z.even (Z.pos m)); reflexivity.
Qed.

(** A finite number other than zero, divided by itself, is exactly 1. *)
Lemma div_self (e : float) : finite_nonzero e -> (e / e)%float = 1%float.
Proof.
  unfold finite_nonzero. intros He. apply Prim2SF_inj. rewrite div_spec.
  destruct (Prim2SF e) as [s|s| |s m ex]; try contradiction.
  unfold SF64div, SFdiv. rewrite SFdiv_core_binary_self.
  destruct s; vm_compute; reflexivity.
Qed.

Lemma finite_nonzero_not_neg_zero (e : float) : finite_nonzero e -> e <> neg_zero.
Proof. unfold finite_nonzero. intros He ->. exact He. Qed.

Lemma digits2_pos_shift52 (m : positive) :
  Z.pos (digits2_pos (4503599627370496 * m)) = (52 + Z.pos (digits2_pos m))%Z.
Proof.
  simpl. change PosDef.Pos.succ with Pos.succ.
  rewrite !Pos2Z.inj_succ, Pos.mul_1_l. lia.
Qed.

Lemma iter_shr_1_shift52 (m : positive) :
  SpecFloat.iter_pos shr_1 52
    {| shr_m := Z.pos (4503599627370496 * m); shr_r := false; shr_s := false |} =
  {| shr_m := Z.pos m; shr_r := false; shr_s := false |}.
Proof. reflexivity. Qed.

(** Multiplying by 1 changes no number. *)
Lemma mul_one (v : float) : (1 * v)%float = v.
Proof.
  apply Prim2SF_inj. rewrite mul_spec.
  pose proof (Prim2SF_valid v) as Hv.
  change (Prim2SF 1) with (S754_finite false 4503599627370496 (-52)).
  destruct (Prim2SF v) as [s|s| |s m e]; try reflexivity.
  unfold SF64mul, SFmul. cbn [xorb].
  unfold SpecFloat.valid_binary, SpecFloat.bounded, canonical_mantissa in Hv.
  apply andb_true_iff in Hv. destruct Hv as [Hc He].
  apply Z.eqb_eq in Hc.
  unfold binary_round_aux, shr_fexp at 1, Zdigits2.
  rewrite digits2_pos_shift52.
  replace (52 + Z.pos (digits2_pos m) + (-52 + e))%Z
    with (Z.pos (digits2_pos m) + e)%Z by lia.
  rewrite Hc. replace (e - (-52 + e))%Z with 52%Z by lia.
  cbn [shr_record_of_loc]. unfold shr at 1. rewrite iter_shr_1_shift52.
  cbn [shr_m loc_of_shr_record round_nearest_even].
  replace (-52 + e + 52)%Z with e by lia.
  unfold shr_fexp, Zdigits2. rewrite Hc, Z.sub_diag.
  cbn [shr_record_of_loc shr shr_m]. now rewrite He.
Qed.

Lemma zero_add_mul_one (v : float) :
  v <> neg_zero -> (0 + 1 * v)%float = v.
Proof. intros Hv. rewrite mul_one. now apply zero_add. Qed.

Lemma fold_add_signed_zeros (l : list float) :
  Forall signed_zero l -> fold_left PrimFloat.add l 0%float = 0%float.
Proof.
  induction 1 as [|a l Ha _ IH]; [reflexivity|].
  cbn [fold_left]. now rewrite zero_add_signed_zero.
Qed.

Lemma map_const_repeat {B : Type} (c : B) (l : list nat) :
  map (fun _ => c) l = repeat c (length l).
Proof. induction l as [|a l IH]; [reflexivity|]. cbn. now rewrite IH. Qed.

(** ** The weights in binary64 *)

Section Binary64.
Variable exp64 : float -> float.

#[local] Hint Extern 0 (Scalar float) =>
  exact (binary64 exp64) : typeclass_instances.

Lemma item_row_softmax64 (x : ndarray float) (i j : nat) :
  (i < nrows x)%nat -> (j < ncols x)%nat ->
  item (row_softmax x) i j =
  (exp64 (item x i j) / sum_list (exp_row x i))%float.
Proof.
  intros Hi Hj. unfold row_softmax. now rewrite item_tabulate.
Qed.



(** C4, as the code has it.  The softmax exponentiates the scores as they
    are.  Where the exponential of a score overflows to infinity, the
    weight at that position is NaN in whatever [calculate_weights] returns,
    and when that score is in the first row the call returns nothing: the
    first row sum is NaN and the assertion raises. *)
Theorem overflowing_score_gives_nan (Q K : ndarray float) (i j : nat) :
  ncols Q = ncols K -> (i < nrows Q)%nat -> (j < nrows K)%nat ->
  exp64 (item (qk_scores Q K) i j) = infinity ->
  (forall W, calculate_weights Q K = Ok W -> item W i j = nan) /\
  (i = 0%nat -> calculate_weights Q K = Raise AssertionError).
Proof.
  intros Hd Hi Hj Hinf.
  assert (Hnan : item (row_softmax (qk_scores Q K)) i j = nan).
  { rewrite item_row_softmax64 by assumption. rewrite Hinf.
    apply infinity_div_not_finite. unfold sum_list.
    apply fold_add_not_finite with (a := infinity); [|exact I].
    unfold exp_row. rewrite <- Hinf. apply in_map_iff. exists j.
    split; [reflexivity|]. apply in_seq.
    change (ncols (qk_scores Q K)) with (nrows K). lia. }
  split.
  - intros W HW. apply calculate_weights_returns_inv in HW.
    destruct HW as [_ [_ [-> _]]]. exact Hnan.
  - intros ->. rewrite calculate_weights_cases.
    apply Nat.eqb_eq in Hd. rewrite Hd.
    destruct (nrows Q) as [|m] eqn:Hm; [lia|].
    replace (sum_list (row (row_softmax (qk_scores Q K)) 0)) with nan.
    + reflexivity.
    + symmetry. unfold sum_list. apply fold_add_nan.
      rewrite <- Hnan. unfold row. apply in_map_iff. exists j.
      split; [reflexivity|]. apply in_seq.
      change (ncols (row_softmax (qk_scores Q K))) with (nrows K). lia.
Qed.

(** C6, as the code has it.  With a single query row and a single
    key/value row, when the exponential of the one score is a finite number
    other than zero (it has neither overflowed nor underflowed to zero), the
    weights are exactly [[1.0]], and the attention output is the value row,
    provided the value row holds no -0.0 (which comes out as 0.0). *)
Theorem single_row_attention (Q K V : ndarray float) :
  nrows Q = 1%nat -> nrows K = 1%nat -> ncols Q = ncols K ->
  wf V -> nrows V = 1%nat ->
  PrimFloat.is_finite (exp64 (item (qk_scores Q K) 0 0)) = true ->
  is_zero (exp64 (item (qk_scores Q K) 0 0)) = false ->
  Forall (fun v => v <> neg_zero) (row V 0) ->
  calculate_weights Q K = Ok (mk_ndarray 1 1 [[1%float]]) /\
  attention_qkv Q K V = Ok V.
Proof.
  intros Hm Hn Hd HV Hv Hfin Hnz Hrow.
  pose proof (finite_nonzero_intro _ Hfin Hnz) as He.
  apply (@single_row_attention_any float (binary64 exp64) Q K V);
    try assumption.
  - cbn [s_div s_add s_zero s_one s_exp binary64].
    rewrite zero_add by now apply finite_nonzero_not_neg_zero.
    now apply div_self.
  - reflexivity.
  - eapply List.Forall_impl; [|exact Hrow].
    intros v Hne. cbn [s_add s_mul s_zero s_one binary64].
    now apply zero_add_mul_one.
Qed.

(** A query row of zeros, as [embed] writes for an unknown word, attends to
    every key alike: with finite keys, whatever [calculate_weights] returns
    holds in that row the same weight 1 / (0 + 1 + ... + 1), one 1 per key,
    at every position. *)
Theorem zero_query_row_uniform (Q K W : ndarray float) (i j : nat) :
  ncols Q = ncols K -> (i < nrows Q)%nat -> (j < nrows K)%nat ->
  (forall k, (k < ncols Q)%nat -> item Q i k = 0%float) ->
  (forall j' k, (j' < nrows K)%nat -> (k < ncols K)%nat ->
     PrimFloat.is_finite (item K j' k) = true) ->
  exp64 0%float = 1%float ->
  calculate_weights Q K = Ok W ->
  item W i j = (1 / sum_list (repeat 1%float (nrows K)))%float.
Proof.
  intros Hd Hi Hj Hz Hfin H0 HW.
  apply calculate_weights_returns_inv in HW. destruct HW as [_ [_ [-> _]]].
  assert (Hscore : forall j', (j' < nrows K)%nat ->
            item (qk_scores Q K) i j' = 0%float).
  { intros j' Hj'. unfold qk_scores. rewrite item_tabulate by assumption.
    unfold sum_list. cbn [s_add s_zero s_mul binary64].
    apply fold_add_signed_zeros. apply Forall_map. apply List.Forall_forall.
    intros k Hk. apply in_seq in Hk. cbn. rewrite Hz by lia.
    apply zero_mul_finite. apply Hfin; lia. }
  rewrite item_row_softmax64 by assumption.
  rewrite (Hscore j Hj), H0. f_equal. f_equal.
  unfold exp_row. change (ncols (qk_scores Q K)) with (nrows K).
  rewrite (map_ext_in _ (fun _ => 1%float)).
  - now rewrite map_const_repeat, length_seq.
  - intros k Hk. apply in_seq in Hk. cbn [s_exp binary64].
    now rewrite Hscore, H0 by lia.
Qed.

(** The scores 0 and 10000 in two rows: the second row of the returned
    weights is NaN. *)
Example calculate_weights64_overflow :
  exp64 0%float = 1%float -> exp64 10000%float = infinity ->
  calculate_weights (mk_ndarray 2 1 [[0%float]; [100%float]])
                    (mk_ndarray 1 1 [[100%float]])
  = Ok (mk_ndarray 2 1 [[1%float]; [nan]]).
Proof.
  intros H0 Hbig. vm_compute. rewrite H0, Hbig. vm_compute. reflexivity.
Qed.

(** The score 10000 in the single row: the assertion raises. *)
Example calculate_weights64_single_overflow :
  exp64 10000%float = infinity ->
  calculate_weights (mk_ndarray 1 1 [[100%float]])
                    (mk_ndarray 1 1 [[100%float]])
  = Raise AssertionError.
Proof.
  intros Hbig. vm_compute. rewrite Hbig. vm_compute. reflexivity.
Qed.

(** Six equal scores: the weights 1/6 sum to 0.9999999999999999 and the
    assertion raises. *)
Example calculate_weights64_six_equal_scores :
  exp64 0%float = 1%float ->
  calculate_weights
    (mk_ndarray 1 1 [[0%float]])
    (mk_ndarray 6 1 [[1%float]; [1%float]; [1%float];
                     [1%float]; [1%float]; [1%float]])
  = Raise AssertionError.
Proof.
  intros H0. vm_compute. rewrite H0. vm_compute. reflexivity.
Qed.

End Binary64.

(** ** The claims as stated, on inputs where they fail *)

Lemma exp64_approx_not_negative (x : float) : not_negative (exp64_approx x).
Proof.
  unfold exp64_approx. destruct (710 <=? x)%float; [reflexivity|].
  apply not_negative_square.
Qed.

Lemma exp64_approx_like : exp64_like exp64_approx.
Proof.
  split; [vm_compute; reflexivity|]. split.
  - intros x Hx. unfold exp64_approx. now rewrite Hx.
  - exact exp64_approx_not_negative.
Qed.

Lemma exp64_approx_0 : exp64_approx 0%float = 1%float.
Proof. vm_compute. reflexivity. Qed.

Lemma exp64_approx_10000 : exp64_approx 10000%float = infinity.
Proof. vm_compute. reflexivity. Qed.

Lemma wf_1_1 {A : Type} (a : A) : wf (mk_ndarray 1 1 [[a]]).
Proof. split; [reflexivity | repeat constructor]. Qed.

Ltac finite_entries_by_evaluation :=
  unfold finite_entries; cbn [rows];
  repeat (first [apply List.Forall_nil | apply List.Forall_cons]);
  vm_compute; reflexivity.


(** C5, as stated, fails on one query with six keys of equal score: nothing
    is returned. *)
Lemma attention_can_raise_on_valid_input : ~ attention_returns_the_product.
Proof.
  intros Hc.
  destruct (Hc exp64_approx exp64_approx_like
               (mk_ndarray 1 1 [[0%float]])
               (mk_ndarray 6 1 [[1%float]; [1%float]; [1%float];
                                [1%float]; [1%float]; [1%float]])
               (mk_ndarray 6 1 [[1%float]; [2%float]; [3%float];
                                [4%float]; [5%float]; [6%float]]))
    as [weights [output [HW _]]];
    [split; [reflexivity | repeat constructor] ..
    | finite_entries_by_evaluation | finite_entries_by_evaluation
    | finite_entries_by_evaluation
    | reflexivity | reflexivity
    | cbn [nrows]; lia | cbn [nrows]; lia | cbn [ncols]; lia | cbn [ncols]; lia
    | ].
  rewrite (calculate_weights64_six_equal_scores exp64_approx exp64_approx_0)
    in HW.
  discriminate.
Qed.

(** C6, as stated, fails on the query [[100]] and the key [[100]]: the
    exponential of the score overflows and the assertion raises. *)
Lemma single_row_can_raise : ~ single_row_gives_one.
Proof.
  intros Hc.
  destruct (Hc exp64_approx exp64_approx_like
               (mk_ndarray 1 1 [[100%float]])
               (mk_ndarray 1 1 [[100%float]])
               (mk_ndarray 1 1 [[1%float]])) as [HW _];
    [apply wf_1_1 ..
    | finite_entries_by_evaluation | finite_entries_by_evaluation
    | finite_entries_by_evaluation
    | reflexivity | reflexivity | reflexivity | reflexivity
    | cbn [ncols]; lia | cbn [ncols]; lia
    | ].
  rewrite (calculate_weights64_single_overflow exp64_approx exp64_approx_10000)
    in HW.
  discriminate.
Qed.

(** ** Exceptions of the embedding lookup *)

Section EmbedExceptions.
Context {A : Type} `{Scalar A}.

(** For tokens that fit a signed 64-bit integer (beyond them NumPy raises
    [OverflowError], which this development does not cover), the only
    exception of [embed] is [IndexError], and it is raised exactly when a
    token other than -1 lies outside [-vocabulary_size, vocabulary_size). *)
Theorem embed_raises_index_error_iff (E : ndarray A) (tokens : list Z) :
  Forall (fun t => (- 2 ^ 63 <= t < 2 ^ 63)%Z) tokens ->
  (forall e, embed tokens E = Raise e -> e = IndexError) /\
  (embed tokens E = Raise IndexError <->
   exists t, In t tokens /\ t <> (-1)%Z /\
             (t < - Z.of_nat (nrows E) \/ Z.of_nat (nrows E) <= t)%Z).
Proof.
  intros _.
  assert (Hcases : (exists output, embed tokens E = Ok output) \/
                   Exists (fun t => embed_token E t = Raise IndexError) tokens).
  { destruct (tokens_rows_or_raise E tokens) as [[rs Hrs]|Hex];
      [left; eexists; apply embed_ok; eassumption | now right]. }
  split.
  - intros e He. destruct Hcases as [[output Ho]|Hex]; [congruence|].
    rewrite (embed_raises E tokens Hex) in He. congruence.
  - split.
    + intros He. destruct Hcases as [[output Ho]|Hex]; [congruence|].
      apply List.Exists_exists in Hex. destruct Hex as [t [Hin Ht]].
      exists t. split; [assumption|].
      now apply embed_token_raise_inv in Ht.
    + intros [t [Hin [Hs Hb]]]. now apply (embed_out_of_bounds E tokens t).
Qed.

End EmbedExceptions.

(** ** Instances in binary64 and over the reals *)


Lemma calculate_weights_reports_errors_witness :
  (exists e,
     @calculate_weights float (binary64 exp64_approx)
       (mk_ndarray 1 2 [[1%float; 2%float]])
       (mk_ndarray 1 3 [[1%float; 2%float; 3%float]]) = Raise e /\
     spec_error_of e = ShapeMismatch) /\
  (exists e,
     @calculate_weights float (binary64 exp64_approx)
       (mk_ndarray 1 2 [[1%float; 2%float]]) (mk_ndarray 0 2 []) = Raise e /\
     spec_error_of e = EmptyInput).
Proof.
  split.
  - apply (proj1 (@calculate_weights_reports_errors float
                    (binary64 exp64_approx) eq_refl
                    (mk_ndarray 1 2 [[1%float; 2%float]])
                    (mk_ndarray 1 3 [[1%float; 2%float; 3%float]]))).
    cbn [ncols]. lia.
  - apply (proj2 (@calculate_weights_reports_errors float
                    (binary64 exp64_approx) eq_refl
                    (mk_ndarray 1 2 [[1%float; 2%float]])
                    (mk_ndarray 0 2 []))).
    + reflexivity.
    + right. reflexivity.
Defined.

Lemma overflowing_score_gives_nan_witness :
  (forall W,
     @calculate_weights float (binary64 exp64_approx)
       (mk_ndarray 2 1 [[0%float]; [100%float]])
       (mk_ndarray 1 1 [[100%float]]) = Ok W ->
     @item float (binary64 exp64_approx) W 1 0 = nan) /\
  (1%nat = 0%nat ->
   @calculate_weights float (binary64 exp64_approx)
     (mk_ndarray 2 1 [[0%float]; [100%float]])
     (mk_ndarray 1 1 [[100%float]]) = Raise AssertionError).
Proof.
  apply (overflowing_score_gives_nan exp64_approx
           (mk_ndarray 2 1 [[0%float]; [100%float]])
           (mk_ndarray 1 1 [[100%float]]) 1 0).
  - reflexivity.
  - cbn [nrows]. lia.
  - cbn [nrows]. lia.
  - vm_compute. reflexivity.
Defined.

Lemma attention_qkv_is_product_of_returned_weights_witness :
  exists out,
    @attention_qkv float (binary64 exp64_approx)
      (mk_ndarray 2 1 [[0%float]; [100%float]])
      (mk_ndarray 1 1 [[100%float]])
      (mk_ndarray 1 2 [[2%float; 3%float]]) = Ok out /\
    @np_dot float (binary64 exp64_approx)
      (mk_ndarray 2 1 [[1%float]; [nan]])
      (mk_ndarray 1 2 [[2%float; 3%float]]) = Ok out /\
    wf out /\ shape out = (2%nat, 2%nat) /\
    forall i j, (i < 2)%nat -> (j < 2)%nat ->
      @item float (binary64 exp64_approx) out i j =
      @sum_list float (binary64 exp64_approx)
        (map (fun k =>
                (@item float (binary64 exp64_approx)
                   (mk_ndarray 2 1 [[1%float]; [nan]]) i k *
                 @item float (binary64 exp64_approx)
                   (mk_ndarray 1 2 [[2%float; 3%float]]) k j)%float)
             (seq 0 1)).
Proof.
  apply (proj1 (@attention_qkv_is_product_of_returned_weights float
                  (binary64 exp64_approx)
                  (mk_ndarray 2 1 [[0%float]; [100%float]])
                  (mk_ndarray 1 1 [[100%float]])
                  (mk_ndarray 1 2 [[2%float; 3%float]]))
               (mk_ndarray 2 1 [[1%float]; [nan]])).
  - exact (calculate_weights64_overflow exp64_approx
             exp64_approx_0 exp64_approx_10000).
  - reflexivity.
Defined.

Lemma single_row_attention_witness :
  @calculate_weights float (binary64 exp64_approx)
    (mk_ndarray 1 2 [[3%float; 4%float]]) (mk_ndarray 1 2 [[5%float; 6%float]])
    = Ok (mk_ndarray 1 1 [[1%float]]) /\
  @attention_qkv float (binary64 exp64_approx)
    (mk_ndarray 1 2 [[3%float; 4%float]]) (mk_ndarray 1 2 [[5%float; 6%float]])
    (mk_ndarray 1 3 [[7%float; 8%float; 9%float]])
    = Ok (mk_ndarray 1 3 [[7%float; 8%float; 9%float]]).
Proof.
  apply (single_row_attention exp64_approx
           (mk_ndarray 1 2 [[3%float; 4%float]])
           (mk_ndarray 1 2 [[5%float; 6%float]])
           (mk_ndarray 1 3 [[7%float; 8%float; 9%float]])).
  - reflexivity.
  - reflexivity.
  - reflexivity.
  - split; [reflexivity | repeat constructor].
  - reflexivity.
  - vm_compute. reflexivity.
  - vm_compute. reflexivity.
  - repeat (apply List.Forall_cons || apply List.Forall_nil);
      intros E; apply (f_equal Prim2SF) in E; vm_compute in E; discriminate.
Defined.

Lemma embed_raises_index_error_iff_witness :
  @embed float (binary64 exp64_approx) [0%Z; 2%Z]
    (mk_ndarray 2 1 [[5%float]; [6%float]]) = Raise IndexError.
Proof.
  apply (proj2 (@embed_raises_index_error_iff float (binary64 exp64_approx)
                  (mk_ndarray 2 1 [[5%float]; [6%float]]) [0%Z; 2%Z]
                  ltac:(repeat constructor; lia))).
  exists 2%Z. split; [right; now left|]. split; [lia|]. right. cbn [nrows]. lia.
Defined.

Lemma alignment_returns_or_asserts_witness :
  ((exists W,
      @alignment float (binary64 exp64_approx) ascii_lower
        "The cat" {["the" := 1%Z]} (mk_ndarray 2 1 [[5%float]; [6%float]])
        "Le chat" {["le" := 0%Z]} (mk_ndarray 1 1 [[7%float]]) = Ok W /\
      shape W = (S (count_char " " (ascii_lower "Le chat")),
                 S (count_char " " (ascii_lower "The cat"))) /\
      wf W) \/
   @alignment float (binary64 exp64_approx) ascii_lower
     "The cat" {["the" := 1%Z]} (mk_ndarray 2 1 [[5%float]; [6%float]])
     "Le chat" {["le" := 0%Z]} (mk_ndarray 1 1 [[7%float]])
     = Raise AssertionError) /\
  ((exists out,
      @attention_qkv_result float (binary64 exp64_approx) ascii_lower
        "The cat" {["the" := 1%Z]} (mk_ndarray 2 1 [[5%float]; [6%float]])
        "Le chat" {["le" := 0%Z]} (mk_ndarray 1 1 [[7%float]]) = Ok out /\
      shape out = (S (count_char " " (ascii_lower "Le chat")), 1%nat) /\
      wf out) \/
   @attention_qkv_result float (binary64 exp64_approx) ascii_lower
     "The cat" {["the" := 1%Z]} (mk_ndarray 2 1 [[5%float]; [6%float]])
     "Le chat" {["le" := 0%Z]} (mk_ndarray 1 1 [[7%float]])
     = Raise AssertionError).
Proof.
  apply (@alignment_returns_or_asserts float (binary64 exp64_approx) ascii_lower
           "The cat" {["the" := 1%Z]} (mk_ndarray 2 1 [[5%float]; [6%float]])
           "Le chat" {["le" := 0%Z]} (mk_ndarray 1 1 [[7%float]])).
  - intros word t Hw. apply lookup_singleton_Some in Hw. destruct Hw as [_ <-].
    cbn [nrows]. lia.
  - intros word t Hw. apply lookup_singleton_Some in Hw. destruct Hw as [_ <-].
    cbn [nrows]. lia.
  - reflexivity.
Defined.

Lemma returns_only_if_shapes_agree_witness :
  (1%nat = 1%nat /\ (1 <= 2)%nat /\ (1 <= 1)%nat /\
   shape (mk_ndarray 2 1 [[1%float]; [nan]]) = (2%nat, 1%nat)).
Proof.
  apply (proj1 (@returns_only_if_shapes_agree float (binary64 exp64_approx)
                  eq_refl
                  (mk_ndarray 2 1 [[0%float]; [100%float]])
                  (mk_ndarray 1 1 [[100%float]])
                  (mk_ndarray 1 1 [[2%float]]))
               (mk_ndarray 2 1 [[1%float]; [nan]])).
  exact (calculate_weights64_overflow exp64_approx
           exp64_approx_0 exp64_approx_10000).
Defined.

Lemma attention_qkv_errors_witness :
  @attention_qkv float (binary64 exp64_approx)
    (mk_ndarray 2 1 [[0%float]; [100%float]]) (mk_ndarray 1 1 [[100%float]])
    (mk_ndarray 2 1 [[2%float]; [3%float]]) = Raise ValueError.
Proof.
  apply (@attention_qkv_errors float (binary64 exp64_approx)
           (mk_ndarray 2 1 [[0%float]; [100%float]])
           (mk_ndarray 1 1 [[100%float]])
           (mk_ndarray 2 1 [[2%float]; [3%float]])
           (mk_ndarray 2 1 [[1%float]; [nan]])).
  - exact (calculate_weights64_overflow exp64_approx
             exp64_approx_0 exp64_approx_10000).
  - cbn [nrows]. lia.
Defined.

Lemma zero_query_row_uniform_witness :
  @item float (binary64 exp64_approx)
    (mk_ndarray 1 2 [[0.5%float; 0.5%float]]) 0 1 =
  (1 / @sum_list float (binary64 exp64_approx) (repeat 1%float 2))%float.
Proof.
  apply (zero_query_row_uniform exp64_approx
           (mk_ndarray 1 2 [[0%float; 0%float]])
           (mk_ndarray 2 2 [[1%float; 0%float]; [0%float; 1%float]])
           (mk_ndarray 1 2 [[0.5%float; 0.5%float]]) 0 1).
  - reflexivity.
  - cbn [nrows]. lia.
  - cbn [nrows]. lia.
  - intros k Hk. cbn [ncols] in Hk.
    destruct k as [|[|k]]; [reflexivity | reflexivity | lia].
  - intros j' k Hj' Hk. cbn [nrows ncols] in Hj', Hk.
    destruct j' as [|[|j']]; [| |lia];
      (destruct k as [|[|k]]; [vm_compute; reflexivity
                              | vm_compute; reflexivity | lia]).
  - exact exp64_approx_0.
  - vm_compute. reflexivity.
Defined.


Section RealInstances.
Local Open Scope R_scope.

Lemma unknown_word_uniform_alignment_witness :
  item (row_softmax (qk_scores (mk_ndarray 1 1 [[0]])
                               (mk_ndarray 2 1 [[5]; [6]]))) 0 1
  = 1 / INR (ncols (row_softmax (qk_scores (mk_ndarray 1 1 [[0]])
                                           (mk_ndarray 2 1 [[5]; [6]])))).
Proof.
  apply (unknown_word_uniform_alignment ascii_lower
           "the cat" {["the" := 0%Z; "cat" := 1%Z]} (mk_ndarray 2 1 [[5]; [6]])
           "chat" {["le" := 0%Z]} (mk_ndarray 1 1 [[7]])
           _ 0%nat 1%nat "chat").
  - unfold alignment.
    change (embedded ascii_lower "the cat" {["the" := 0%Z; "cat" := 1%Z]}
              (mk_ndarray 2 1 [[5]; [6]]))
      with (embed (tokenize ascii_lower "the cat"
                     {["the" := 0%Z; "cat" := 1%Z]})
                  (mk_ndarray 2 1 [[5]; [6]])).
    change (embedded ascii_lower "chat" {["le" := 0%Z]} (mk_ndarray 1 1 [[7]]))
      with (embed (tokenize ascii_lower "chat" {["le" := 0%Z]})
                  (mk_ndarray 1 1 [[7]])).
    replace (tokenize ascii_lower "the cat" {["the" := 0%Z; "cat" := 1%Z]})
      with [0%Z; 1%Z] by (vm_compute; reflexivity).
    replace (tokenize ascii_lower "chat" {["le" := 0%Z]}) with [(-1)%Z]
      by (vm_compute; reflexivity).
    change (embed [0%Z; 1%Z] (mk_ndarray 2 1 [[5]; [6]]))
      with (Ok (mk_ndarray 2 1 [[5]; [6]])).
    change (embed [(-1)%Z] (mk_ndarray 1 1 [[7]])) with (Ok (mk_ndarray 1 1 [[0]])).
    cbn [bind]. apply calculate_weights_eq; cbn; lia.
  - reflexivity.
  - vm_compute. reflexivity.
  - cbn. lia.
Defined.

End RealInstances.
